(** * The FSEvents publisher of osquery (osquery/events/darwin/fsevents.cpp)

    A shallow embedding of [FSEventsEventPublisher]: the subscription filter
    [shouldFire], the callback bridge [Callback] with the flag-to-action table
    [kMaskActions], the symlink resolution of [configure], and the stream
    lifecycle ([restart], [stop], [tearDown], [run], [end], [flush],
    [isStreamRunning], [numSubscriptionedPaths]).

    Strings are [string]; the 32-bit flag words and 64-bit event ids are [Z];
    [std::set<std::string>] is [gset string]; a null pointer is [None]. *)

From Stdlib Require Import ZArith Lia List String Ascii Bool Sorted.
From stdpp Require Import base option list gmap sets strings.

Import ListNotations.
Local Open Scope string_scope.
Local Open Scope Z_scope.
Local Open Scope list_scope.

(** ** What the program takes from its platform *)

(** The three operations of [boost::filesystem::path] used by [configure]:
    [p.is_absolute()], [p.parent_path()] and [p / q] (followed by
    [.string()]).  They belong to Boost, not to this repository. *)
Class PathOps := {
  is_absolute : string -> bool;
  parent_path : string -> string;
  path_append : string -> string -> string;
}.

(** [fnmatch(3)] and the two flag constants [shouldFire] passes to it.
    The result is zero on a match. *)
Class Libc := {
  fnmatch : string -> string -> Z -> Z;
  FNM_PATHNAME : Z;
  FNM_CASEFOLD : Z;
}.

(** The file system as the two probes of [configure] see it.  Both are the
    [error_code] overloads: on an error [is_symlink] answers [false] and
    [read_symlink] answers the empty path. *)
Record FileSystem := {
  is_symlink : string -> bool;
  read_symlink : string -> string;
}.

(** Opaque native references: an [FSEventStreamRef] and a [CFRunLoopRef]. *)
Definition FSEventStreamRef := nat.
Definition CFRunLoopRef := nat.

(** ** Data model *)

(** [FSEventsSubscriptionContext]: [link_] is the original (requested) path
    when [path] was found to be a link, and empty otherwise. *)
Record FSEventsSubscriptionContext := {
  path : string;
  link_ : string;
  recursive : bool;
  mask : Z;
}.

(** [FSEventsEventContext]; its [path] member is [ec_path] here. *)
Record FSEventsEventContext := {
  fsevent_stream : FSEventStreamRef;
  fsevent_flags : Z;
  transaction_id : Z;
  ec_path : string;
  action : string;
}.

(** ** [std::string] operations *)

(** [is_prefix p s]: [s] begins with [p] at offset zero, byte for byte. *)
Fixpoint is_prefix (p s : string) : bool :=
  match p, s with
  | EmptyString, _ => true
  | String a p', String b s' => if Ascii.eqb a b then is_prefix p' s' else false
  | String _ _, EmptyString => false
  end.

(** The scan of [s.find(pat)]: the lowest position at which [pat] occurs in
    [s], counted from [pos]; [None] stands for [npos]. *)
Fixpoint find_from (pos : nat) (s pat : string) : option nat :=
  if is_prefix pat s then Some pos
  else match s with
       | EmptyString => None
       | String _ s' => find_from (S pos) s' pat
       end.

(** [ssize_t found = s.find(pat)]: a position stays what it is (positions
    are below [max_size()], hence below 2^63), and [npos], which is
    2^64 - 1, becomes -1 in the signed type. *)
Definition string_find (s pat : string) : Z :=
  match find_from 0 s pat with
  | Some n => Z.of_nat n
  | None => -1
  end.

(** ** The subscription filter *)

Section ShouldFire.
Context `{Libc}.

Definition shouldFire (sc : FSEventsSubscriptionContext)
           (ec : FSEventsEventContext) : bool :=
  if (if recursive sc
      then negb (string_find (ec_path ec) (path sc) =? 0)
      else negb (fnmatch (path sc +:+ "*") (ec_path ec)
                         (Z.lor FNM_PATHNAME FNM_CASEFOLD) =? 0))
  then false
  else if negb (mask sc =? 0) && (Z.land (fsevent_flags ec) (mask sc) =? 0)
       then false
       else true.
End ShouldFire.

(** ** The flag-to-action table *)

(** The [FSEventStreamEventFlags] bits named in this file, with the values
    the CoreServices header [FSEvents.h] gives them; that header is part of
    the platform SDK, not of this repository. *)
Definition kFSEventStreamEventFlagMustScanSubDirs : Z := 0x00000001.
Definition kFSEventStreamEventFlagRootChanged : Z := 0x00000020.
Definition kFSEventStreamEventFlagUnmount : Z := 0x00000080.
Definition kFSEventStreamEventFlagItemCreated : Z := 0x00000100.
Definition kFSEventStreamEventFlagItemRemoved : Z := 0x00000200.
Definition kFSEventStreamEventFlagItemInodeMetaMod : Z := 0x00000400.
Definition kFSEventStreamEventFlagItemRenamed : Z := 0x00000800.
Definition kFSEventStreamEventFlagItemModified : Z := 0x00001000.
Definition kFSEventStreamEventFlagItemChangeOwner : Z := 0x00004000.
Definition kFSEventStreamEventFlagItemXattrMod : Z := 0x00008000.

(** [std::map<FSEventStreamEventFlags, std::string>]: kept as the list of
    its entries in iteration order, which is ascending key order.
    [map_insert] is [std::map::insert]: an entry whose key is already
    present is not inserted. *)
Fixpoint map_insert (k : Z) (v : string) (m : list (Z * string))
  : list (Z * string) :=
  match m with
  | [] => [(k, v)]
  | (k', v') :: m' =>
      if k <? k' then (k, v) :: m
      else if k =? k' then m
      else (k', v') :: map_insert k v m'
  end.

(** Construction from an initializer list: the entries are inserted one
    after the other. *)
Definition map_of_initializer_list (l : list (Z * string)) : list (Z * string) :=
  fold_left (fun m e => map_insert (fst e) (snd e) m) l [].

(** The initializer list of [kMaskActions], in the order it is written. *)
Definition kMaskActions_init : list (Z * string) := [
  (kFSEventStreamEventFlagItemChangeOwner, "ATTRIBUTES_MODIFIED");
  (kFSEventStreamEventFlagItemXattrMod, "ATTRIBUTES_MODIFIED");
  (kFSEventStreamEventFlagItemInodeMetaMod, "ATTRIBUTES_MODIFIED");
  (kFSEventStreamEventFlagItemCreated, "CREATED");
  (kFSEventStreamEventFlagItemRemoved, "DELETED");
  (kFSEventStreamEventFlagItemModified, "UPDATED");
  (kFSEventStreamEventFlagItemRenamed, "MOVED_TO");
  (kFSEventStreamEventFlagMustScanSubDirs, "COLLISION_WITHIN");
  (kFSEventStreamEventFlagUnmount, "UNMOUNTED");
  (kFSEventStreamEventFlagRootChanged, "ROOT_CHANGED")
]%string.

Definition kMaskActions : list (Z * string) :=
  map_of_initializer_list kMaskActions_init.

(** ** The callback bridge *)

(** What one callback invocation does that is visible outside it: a line on
    the thread log, or a call of [EventFactory::fire] with the event context
    as it is at the time of the call.  One context object is made per raw
    event and its [action] member is overwritten between the calls, so a
    call is recorded with the value the object holds when it is made. *)
Inductive CallbackEffect :=
| TLOG (msg : string)
| fire (ec : FSEventsEventContext).

Definition set_action (a : string) (ec : FSEventsEventContext)
  : FSEventsEventContext :=
  {| fsevent_stream := fsevent_stream ec;
     fsevent_flags := fsevent_flags ec;
     transaction_id := transaction_id ec;
     ec_path := ec_path ec;
     action := a |}.

(** [createEventContext()] followed by the four assignments; [action] is
    still the empty string. *)
Definition new_event_context (stream : FSEventStreamRef) (flags id : Z)
           (p : string) : FSEventsEventContext :=
  {| fsevent_stream := stream;
     fsevent_flags := flags;
     transaction_id := id;
     ec_path := p;
     action := "" |}.

(** The test [flags & bit] of a C condition. *)
Definition has_flag (flags bit : Z) : bool := negb (Z.land flags bit =? 0).

(** The loop over [kMaskActions]: the state is the context object, the
    [has_action] flag and the effects so far. *)
Definition mask_loop_step
           (st : FSEventsEventContext * bool * list CallbackEffect)
           (entry : Z * string)
  : FSEventsEventContext * bool * list CallbackEffect :=
  let '(ec, has_action, out) := st in
  if has_flag (fsevent_flags ec) (fst entry)
  then let ec' := set_action (snd entry) ec in
       (ec', true, out ++ [fire ec'])
  else st.

(** The body of the [for] loop of [Callback], for the raw event made of
    [p], [flags] and [id]. *)
Definition Callback_event (stream : FSEventStreamRef) (p : string)
           (flags id : Z) : list CallbackEffect :=
  let ec := new_event_context stream flags id p in
  let log :=
    if has_flag (fsevent_flags ec) kFSEventStreamEventFlagMustScanSubDirs
    then [TLOG ("FSEvents collision, root: " +:+ ec_path ec)]
    else [] in
  let '(ec, has_action, out) :=
    fold_left mask_loop_step kMaskActions (ec, false, log) in
  if has_action then out
  else out ++ [fire (set_action "UNKNOWN" ec)].

(** [Callback]: [event_paths], [fsevent_flags] and [fsevent_ids] are arrays
    read at the indices below [num_events].  A read past the end of an
    array has no defined behaviour, and gives [None] here.  The result keeps
    the effects of the raw events apart, one list per index. *)
Fixpoint Callback_from (stream : FSEventStreamRef) (i num_events : nat)
         (event_paths : list string) (fsevent_flags' fsevent_ids : list Z)
  : option (list (list CallbackEffect)) :=
  match num_events with
  | O => Some []
  | S n =>
      p ← event_paths !! i;
      f ← fsevent_flags' !! i;
      id ← fsevent_ids !! i;
      rest ← Callback_from stream (S i) n event_paths fsevent_flags' fsevent_ids;
      Some (Callback_event stream p f id :: rest)
  end.

Definition Callback (stream : FSEventStreamRef) (num_events : nat)
           (event_paths : list string) (fsevent_flags' fsevent_ids : list Z)
  : option (list CallbackEffect) :=
  @concat _ <$> Callback_from stream 0 num_events event_paths fsevent_flags' fsevent_ids.

(** The [fire] calls among some effects, in order. *)
Definition fired (out : list CallbackEffect) : list FSEventsEventContext :=
  omap (fun e => match e with fire ec => Some ec | TLOG _ => None end) out.

(** ** The publisher and its native calls *)

(** The members of [FSEventsEventPublisher]. *)
Record PublisherState := {
  paths_ : gset string;
  stream_ : option FSEventStreamRef;
  stream_started_ : bool;
  run_loop_ : option CFRunLoopRef;
}.

(** Modelled from the spec: the state of a publisher at construction.  The
    class declaration (fsevents.h), which holds the member initialisers, is
    not among the sources; the spec has the loop handle null when not
    running, the stream handle null when stopped, and a publisher that
    begins stopped. *)
Definition initial_state : PublisherState :=
  {| paths_ := ∅; stream_ := None; stream_started_ := false; run_loop_ := None |}.

(** The calls a member function makes, in order: the native API, the error
    log, and the two member functions that other members call. *)
Inductive Call :=
| CFStringCreateWithCString (p : string)
| CFArrayCreate (n : nat)
| FSEventStreamCreate (watch_list : list string)
| FSEventStreamScheduleWithRunLoop (s : FSEventStreamRef) (l : CFRunLoopRef)
| FSEventStreamStart (s : FSEventStreamRef)
| FSEventStreamStop (s : FSEventStreamRef)
| FSEventStreamUnscheduleFromRunLoop (s : FSEventStreamRef) (l : option CFRunLoopRef)
| FSEventStreamInvalidate (s : FSEventStreamRef)
| FSEventStreamRelease (s : FSEventStreamRef)
| FSEventStreamFlushAsync (s : FSEventStreamRef)
| FSEventStreamFlushSync (s : FSEventStreamRef)
| CFRelease_watch_list
| CFRelease_path (p : string)
| CFRunLoopGetCurrent
| CFRunLoopRun
| CFRunLoopStop (l : CFRunLoopRef)
| CFRunLoopIsWaiting (l : CFRunLoopRef)
| LOG_ERROR (msg : string)
| call_restart
| call_stop.

(** What the native side answers during one invocation of a member
    function; each of these is asked at most once per invocation. *)
Record Native := {
  FSEventStreamCreate_result : option FSEventStreamRef;
  FSEventStreamStart_result : bool;
  CFRunLoopGetCurrent_result : CFRunLoopRef;
  CFRunLoopIsWaiting_result : bool;
}.

(** A member function: from the state to a result, the new state and the
    calls made. *)
Definition M (A : Type) : Type := PublisherState -> A * PublisherState * list Call.

#[export] Instance M_ret : MRet M := fun A x s => (x, s, []).
#[export] Instance M_bind : MBind M := fun A B f m s =>
  let '(a, s1, t1) := m s in
  let '(b, s2, t2) := f a s1 in
  (b, s2, t1 ++ t2).

Definition get : M PublisherState := fun s => (s, s, []).
Definition call (c : Call) : M unit := fun s => (tt, s, [c]).
Definition for_each {A} (l : list A) (f : A -> M unit) : M unit :=
  foldr (fun x k => f x;; k) (mret tt) l.

Definition result {A} (r : A * PublisherState * list Call) : A := r.1.1.
Definition state_of {A} (r : A * PublisherState * list Call) : PublisherState := r.1.2.
Definition calls {A} (r : A * PublisherState * list Call) : list Call := r.2.

Definition set_paths (ps : gset string) (s : PublisherState) : PublisherState :=
  {| paths_ := ps; stream_ := stream_ s;
     stream_started_ := stream_started_ s; run_loop_ := run_loop_ s |}.
Definition set_stream (st : option FSEventStreamRef) (s : PublisherState)
  : PublisherState :=
  {| paths_ := paths_ s; stream_ := st;
     stream_started_ := stream_started_ s; run_loop_ := run_loop_ s |}.
Definition set_started (b : bool) (s : PublisherState) : PublisherState :=
  {| paths_ := paths_ s; stream_ := stream_ s;
     stream_started_ := b; run_loop_ := run_loop_ s |}.
Definition set_run_loop (l : option CFRunLoopRef) (s : PublisherState)
  : PublisherState :=
  {| paths_ := paths_ s; stream_ := stream_ s;
     stream_started_ := stream_started_ s; run_loop_ := l |}.
Definition modify (f : PublisherState -> PublisherState) : M unit :=
  fun s => (tt, f s, []).

(** A [std::set<std::string>] is walked in ascending order of its keys
    under [std::less<std::string>]: byte by byte, bytes as unsigned values,
    a proper prefix before the longer string.  [String.leb] is that order. *)
Fixpoint set_insert_sorted (p : string) (l : list string) : list string :=
  match l with
  | [] => [p]
  | q :: l' => if String.leb p q then p :: l else q :: set_insert_sorted p l'
  end.

Definition std_set_order (ps : gset string) : list string :=
  foldr set_insert_sorted [] (elements ps).

(** [a < b] for two [std::string]s. *)
Definition string_lt (a b : string) : Prop := String.ltb a b = true.

Definition stop : M unit :=
  call call_stop;;
  s ← get;
  match stream_ s with
  | Some st =>
      call (FSEventStreamStop st);;
      modify (set_started false);;
      call (FSEventStreamUnscheduleFromRunLoop st (run_loop_ s));;
      call (FSEventStreamInvalidate st);;
      call (FSEventStreamRelease st);;
      modify (set_stream None)
  | None => mret tt
  end;;
  match run_loop_ s with
  | Some l => call (CFRunLoopStop l)
  | None => mret tt
  end.

Definition restart (native : Native) : M unit :=
  call call_restart;;
  s ← get;
  if decide (paths_ s = ∅) then mret tt
  else match run_loop_ s with
  | None => mret tt
  | Some l =>
      let cf_paths := std_set_order (paths_ s) in
      for_each cf_paths (fun p => call (CFStringCreateWithCString p));;
      call (CFArrayCreate (length cf_paths));;
      stop;;
      call (FSEventStreamCreate cf_paths);;
      modify (set_stream (FSEventStreamCreate_result native));;
      match FSEventStreamCreate_result native with
      | Some st =>
          call (FSEventStreamScheduleWithRunLoop st l);;
          call (FSEventStreamStart st);;
          if FSEventStreamStart_result native
          then modify (set_started true)
          else call (LOG_ERROR "Cannot start FSEvent stream: FSEventStreamStart failed")
      | None =>
          call (LOG_ERROR "Cannot create FSEvent stream: FSEventStreamCreate failed")
      end;;
      call CFRelease_watch_list;;
      for_each cf_paths (fun p => call (CFRelease_path p))
  end.

Definition tearDown : M unit :=
  stop;;
  modify (set_run_loop None).

Definition end_ : M unit := stop.

Record Status := { code : Z; message : string }.

(** [run]: everything up to and including the call of [CFRunLoopRun], which
    returns when the loop has been stopped. *)
Definition run (native : Native) : M Status :=
  s ← get;
  match run_loop_ s with
  | None =>
      call CFRunLoopGetCurrent;;
      modify (set_run_loop (Some (CFRunLoopGetCurrent_result native)));;
      restart native
  | Some _ => mret tt
  end;;
  call CFRunLoopRun;;
  mret {| code := 0; message := "OK" |}.

Definition flush (async : bool) : M unit :=
  s ← get;
  match stream_ s with
  | Some st =>
      if stream_started_ s
      then if async then call (FSEventStreamFlushAsync st)
           else call (FSEventStreamFlushSync st)
      else mret tt
  | None => mret tt
  end.

Definition numSubscriptionedPaths : M nat :=
  s ← get; mret (size (paths_ s)).

Definition isStreamRunning (native : Native) : M bool :=
  s ← get;
  match stream_ s with
  | None => mret false
  | Some _ =>
      if negb (stream_started_ s) then mret false
      else match run_loop_ s with
           | None => mret false
           | Some l =>
               call (CFRunLoopIsWaiting l);;
               mret (CFRunLoopIsWaiting_result native)
           end
  end.

(** ** Symlink resolution and [configure] *)

Definition FSEVENTS_MAX_SYMLINK_DEPTH : nat := 5.

Definition is_empty (s : string) : bool :=
  match s with EmptyString => true | String _ _ => false end.

Definition set_link (l : string) (sub : FSEventsSubscriptionContext)
  : FSEventsSubscriptionContext :=
  {| path := path sub; link_ := l; recursive := recursive sub; mask := mask sub |}.
Definition set_path (p : string) (sub : FSEventsSubscriptionContext)
  : FSEventsSubscriptionContext :=
  {| path := p; link_ := link_ sub; recursive := recursive sub; mask := mask sub |}.

Section Configure.
Context `{PathOps}.

(** One pass through the body of the [while] loop when [is_symlink] has
    answered [true]. *)
Definition follow_link (fs : FileSystem) (sub : FSEventsSubscriptionContext)
  : FSEventsSubscriptionContext :=
  let sub := if is_empty (link_ sub) then set_link (path sub) sub else sub in
  let source_path := read_symlink fs (path sub) in
  let source_path :=
    if negb (is_absolute source_path)
    then path_append (parent_path (link_ sub)) source_path
    else source_path in
  set_path source_path sub.

(** The [while (link_depth++ < FSEVENTS_MAX_SYMLINK_DEPTH)] loop;
    [remaining] is [FSEVENTS_MAX_SYMLINK_DEPTH - link_depth], the number
    of passes the counter still allows. *)
Fixpoint follow_links (remaining : nat) (fs : FileSystem)
         (sub : FSEventsSubscriptionContext) : FSEventsSubscriptionContext :=
  match remaining with
  | O => sub
  | S n =>
      if is_symlink fs (path sub)
      then follow_links n fs (follow_link fs sub)
      else sub
  end.

Definition resolve (fs : FileSystem) (sub : FSEventsSubscriptionContext)
  : FSEventsSubscriptionContext :=
  follow_links FSEVENTS_MAX_SYMLINK_DEPTH fs sub.

(** The [for] loop of [configure] over [subscriptions_]: each context is
    resolved in place and its path inserted into [paths_].  The contexts
    are given in order, one object per subscription; the result is what
    they hold afterwards. *)
Fixpoint configure_loop (fs : FileSystem)
         (subscriptions : list FSEventsSubscriptionContext)
  : M (list FSEventsSubscriptionContext) :=
  match subscriptions with
  | [] => mret []
  | sub :: rest =>
      let sub' := resolve fs sub in
      modify (fun s => set_paths ({[ path sub' ]} ∪ paths_ s) s);;
      rest' ← configure_loop fs rest;
      mret (sub' :: rest')
  end.

Definition configure (fs : FileSystem) (native : Native)
           (subscriptions : list FSEventsSubscriptionContext)
  : M (list FSEventsSubscriptionContext) :=
  modify (set_paths ∅);;
  subscriptions' ← configure_loop fs subscriptions;
  s ← get;
  (if decide (paths_ s = ∅) then mret tt else restart native);;
  mret subscriptions'.

(** [p] is a link whose stored target [q] is an absolute path. *)
Definition absolute_link (fs : FileSystem) (p q : string) : Prop :=
  is_symlink fs p = true /\ read_symlink fs p = q /\ is_absolute q = true.

(** ** Sequences of calls *)

(** The member functions that change the publisher, with what they are
    given: [configure] reads the file system and the subscriptions the
    registry holds at that time. *)
Inductive Op :=
| op_configure (fs : FileSystem) (subscriptions : list FSEventsSubscriptionContext)
| op_restart
| op_run
| op_stop
| op_end
| op_tearDown
| op_flush (async : bool).

Definition exec (native : Native) (op : Op) (s : PublisherState)
  : PublisherState :=
  match op with
  | op_configure fs subscriptions => state_of (configure fs native subscriptions s)
  | op_restart => state_of (restart native s)
  | op_run => state_of (run native s)
  | op_stop => state_of (stop s)
  | op_end => state_of (end_ s)
  | op_tearDown => state_of (tearDown s)
  | op_flush async => state_of (flush async s)
  end.

(** The states a publisher can be in: the one it is constructed in, and
    those reached from there by calls of its member functions, whatever
    the native side answers to each.  Calls are taken one at a time: a call
    made from another thread while [run] waits in the loop comes after the
    part of [run] that precedes the wait. *)
Inductive reachable : PublisherState -> Prop :=
| reachable_initial : reachable initial_state
| reachable_exec s native op :
    reachable s -> reachable (exec native op s).

(** The states reached when [FSEventStreamStart] succeeds each time it is
    called; [FSEventStreamCreate] may still fail. *)
Inductive reachable_starting : PublisherState -> Prop :=
| reachable_starting_initial : reachable_starting initial_state
| reachable_starting_exec s native op :
    FSEventStreamStart_result native = true ->
    reachable_starting s -> reachable_starting (exec native op s).
End Configure.

(** ** A platform for closed examples *)

(** POSIX paths without repeated or trailing separators: on these the
    three functions below are what Boost computes. *)
Definition is_separator (c : ascii) : bool := Ascii.eqb c "/"%char.

Definition posix_is_absolute (p : string) : bool :=
  match p with
  | String c _ => is_separator c
  | EmptyString => false
  end.

(** The part of [p] before its last separator, if it has one. *)
Fixpoint before_last_separator (p : string) : option string :=
  match p with
  | EmptyString => None
  | String c p' =>
      match before_last_separator p' with
      | Some q => Some (String c q)
      | None => if is_separator c then Some EmptyString else None
      end
  end.

Definition posix_parent_path (p : string) : string :=
  match before_last_separator p with
  | None => ""
  | Some EmptyString => "/"
  | Some q => q
  end.

Fixpoint ends_with_separator (p : string) : bool :=
  match p with
  | EmptyString => false
  | String c EmptyString => is_separator c
  | String _ p' => ends_with_separator p'
  end.

Definition posix_path_append (p q : string) : string :=
  if is_empty q then p
  else if is_empty p || ends_with_separator p || posix_is_absolute q
       then p +:+ q
       else p +:+ "/" +:+ q.

Definition posix_paths : PathOps :=
  {| is_absolute := posix_is_absolute;
     parent_path := posix_parent_path;
     path_append := posix_path_append |}.

(** A libc whose [fnmatch] finds no match ([FNM_NOMATCH] is 1), for
    examples in which the pattern branch of [shouldFire] is not taken. *)
Definition libc_no_match : Libc :=
  {| fnmatch := fun _ _ _ => 1; FNM_PATHNAME := 0x02; FNM_CASEFOLD := 0x10 |}.

(** A file system given by the list of its symbolic links, each with the
    target stored in it; every other path is not a link. *)
Fixpoint link_target (links : list (string * string)) (p : string)
  : option string :=
  match links with
  | [] => None
  | (l, t) :: links' => if String.eqb l p then Some t else link_target links' p
  end.

Definition fs_of_links (links : list (string * string)) : FileSystem :=
  {| is_symlink := fun p => match link_target links p with
                            | Some _ => true | None => false end;
     read_symlink := fun p => match link_target links p with
                              | Some t => t | None => "" end |}.

(** ** Notions used in the statements *)

Definition keys (m : list (Z * string)) : list Z := map fst m.

(** The entries of a table whose bit is set in [flags], in table order. *)
Definition matching (flags : Z) (table : list (Z * string)) : list (Z * string) :=
  List.filter (fun e => has_flag flags (fst e)) table.

(** The invariant of the lifecycle: a publisher marked as started holds a
    stream. *)
Definition started_has_stream (s : PublisherState) : Prop :=
  stream_started_ s = true -> stream_ s <> None.

(** While [FSEventStreamStart] succeeds, a publisher that holds a stream is
    started. *)
Definition stream_is_started (s : PublisherState) : Prop :=
  stream_ s <> None -> stream_started_ s = true.

(** ** Closed runs of a publisher *)

Definition native_ok : Native :=
  {| FSEventStreamCreate_result := Some 1%nat;
     FSEventStreamStart_result := true;
     CFRunLoopGetCurrent_result := 2%nat;
     CFRunLoopIsWaiting_result := true |}.

(** The native side when [FSEventStreamStart] fails. *)
Definition native_start_fails : Native :=
  {| FSEventStreamCreate_result := Some 1%nat;
     FSEventStreamStart_result := false;
     CFRunLoopGetCurrent_result := 2%nat;
     CFRunLoopIsWaiting_result := true |}.

Definition subscription_tmp : FSEventsSubscriptionContext :=
  {| path := "/tmp"; link_ := ""; recursive := false; mask := 0 |}.

(** A publisher with one subscription on [/tmp]: [configure] first, while
    no loop is there yet, then [run]. *)
Definition state_configured : PublisherState :=
  @exec posix_paths native_ok
        (op_configure (fs_of_links []) [subscription_tmp]) initial_state.

Definition state_running : PublisherState :=
  @exec posix_paths native_ok op_run state_configured.

Definition state_start_failed : PublisherState :=
  @exec posix_paths native_start_fails op_run state_configured.

(** The native side when [FSEventStreamCreate] fails, and the publisher
    after a [run] in which it did. *)
Definition native_creation_fails : Native :=
  {| FSEventStreamCreate_result := None;
     FSEventStreamStart_result := true;
     CFRunLoopGetCurrent_result := 2%nat;
     CFRunLoopIsWaiting_result := true |}.

Definition state_creation_failed : PublisherState :=
  @exec posix_paths native_creation_fails op_run state_configured.

(** A chain of seven links, all with absolute targets, ending at [/data]. *)
Definition fs_long_chain : FileSystem :=
  fs_of_links [ ("/l/a", "/l/b"); ("/l/b", "/l/c"); ("/l/c", "/l/d");
                ("/l/d", "/l/e"); ("/l/e", "/l/f"); ("/l/f", "/l/g");
                ("/l/g", "/data") ].

(** ** Reading the calls of a member function *)

(** The paths for which a [CFString] was created, and those whose
    [CFString] was released, in call order. *)
Definition created_strings (t : list Call) : list string :=
  omap (fun c => match c with
                 | CFStringCreateWithCString p => Some p
                 | _ => None
                 end) t.

Definition released_strings (t : list Call) : list string :=
  omap (fun c => match c with CFRelease_path p => Some p | _ => None end) t.

Definition count_calls (P : Call -> bool) (t : list Call) : nat :=
  length (List.filter P t).

Definition is_array_create (c : Call) : bool :=
  match c with CFArrayCreate _ => true | _ => false end.
Definition is_array_release (c : Call) : bool :=
  match c with CFRelease_watch_list => true | _ => false end.
Definition is_schedule (c : Call) : bool :=
  match c with FSEventStreamScheduleWithRunLoop _ _ => true | _ => false end.
Definition is_release (c : Call) : bool :=
  match c with FSEventStreamRelease _ => true | _ => false end.

(** A call that uses a stream handle. *)
Definition is_stream_use (c : Call) : bool :=
  match c with
  | FSEventStreamScheduleWithRunLoop _ _ | FSEventStreamStart _
  | FSEventStreamStop _ | FSEventStreamUnscheduleFromRunLoop _ _
  | FSEventStreamInvalidate _ | FSEventStreamRelease _
  | FSEventStreamFlushAsync _ | FSEventStreamFlushSync _ => true
  | _ => false
  end.

(** Where the publisher stands with the one stream it may hold. *)
Inductive StreamPhase :=
| no_stream
| scheduled (st : FSEventStreamRef)
| unscheduled (st : FSEventStreamRef)
| invalidated (st : FSEventStreamRef).

Definition phase_of (s : PublisherState) : StreamPhase :=
  match stream_ s with
  | Some st => scheduled st
  | None => no_stream
  end.

(** The life of a stream, call by call: scheduled while none is held;
    started, stopped and flushed while it is the one held; then
    unscheduled, invalidated and released, in this order.  [None] when a
    call on a stream comes at another time or names another stream. *)
Definition stream_step (phase : StreamPhase) (c : Call) : option StreamPhase :=
  match c with
  | FSEventStreamScheduleWithRunLoop st _ =>
      match phase with
      | no_stream => Some (scheduled st)
      | _ => None
      end
  | FSEventStreamStart st | FSEventStreamStop st
  | FSEventStreamFlushAsync st | FSEventStreamFlushSync st =>
      match phase with
      | scheduled held => if Nat.eqb st held then Some phase else None
      | _ => None
      end
  | FSEventStreamUnscheduleFromRunLoop st _ =>
      match phase with
      | scheduled held => if Nat.eqb st held then Some (unscheduled held) else None
      | _ => None
      end
  | FSEventStreamInvalidate st =>
      match phase with
      | unscheduled held => if Nat.eqb st held then Some (invalidated held) else None
      | _ => None
      end
  | FSEventStreamRelease st =>
      match phase with
      | invalidated held => if Nat.eqb st held then Some no_stream else None
      | _ => None
      end
  | _ => Some phase
  end.

Fixpoint stream_protocol (phase : StreamPhase) (t : list Call)
  : option StreamPhase :=
  match t with
  | [] => Some phase
  | c :: t' =>
      match stream_step phase c with
      | Some phase' => stream_protocol phase' t'
      | None => None
      end
  end.

(** The calls one member call makes, and a run of member calls from a
    state: the state it ends in and all the calls made, in order. *)
Definition op_calls `{PathOps} (native : Native) (op : Op) (s : PublisherState)
  : list Call :=
  match op with
  | op_configure fs subscriptions => calls (configure fs native subscriptions s)
  | op_restart => calls (restart native s)
  | op_run => calls (run native s)
  | op_stop => calls (stop s)
  | op_end => calls (end_ s)
  | op_tearDown => calls (tearDown s)
  | op_flush async => calls (flush async s)
  end.

Fixpoint run_ops `{PathOps} (ops : list (Native * Op)) (s : PublisherState)
  : PublisherState * list Call :=
  match ops with
  | [] => (s, [])
  | (native, op) :: rest =>
      let '(s', t) := run_ops rest (exec native op s) in
      (s', op_calls native op s ++ t)
  end.

(** [targets] are the successive targets of a chain of links that starts
    at [p], each stored as an absolute path. *)
Fixpoint link_chain `{PathOps} (fs : FileSystem) (p : string)
         (targets : list string) : Prop :=
  match targets with
  | [] => True
  | q :: rest => absolute_link fs p q /\ link_chain fs q rest
  end.

(** A batch of raw events as the three arrays [Callback] is given. *)
Definition batch_paths (evs : list (string * Z * Z)) : list string :=
  map (fun ev => ev.1.1) evs.
Definition batch_flags (evs : list (string * Z * Z)) : list Z :=
  map (fun ev => ev.1.2) evs.
Definition batch_ids (evs : list (string * Z * Z)) : list Z :=
  map (fun ev => ev.2) evs.

(** The labels [Callback] can give to [action]. *)
Definition action_labels : list string :=
  [ "ATTRIBUTES_MODIFIED"; "CREATED"; "DELETED"; "UPDATED"; "MOVED_TO";
    "COLLISION_WITHIN"; "UNMOUNTED"; "ROOT_CHANGED"; "UNKNOWN" ].

(** A chain of two links with absolute targets that ends in a file. *)
Definition fs_short_chain : FileSystem :=
  fs_of_links [ ("/s/a", "/s/b"); ("/s/b", "/data/file") ].

(** * Properties *)

(** ** The subscription filter *)

Lemma is_prefix_spec (p s : string) :
  is_prefix p s = true <-> exists rest, s = p +:+ rest.
Proof.
  revert s. induction p as [|a p IH]; intros s; simpl.
  - split; [intros _; exists s; reflexivity | reflexivity].
  - destruct s as [|b s].
    + split; [discriminate | intros [rest Hrest]; discriminate].
    + destruct (Ascii.eqb_spec a b) as [->|Hab].
      * rewrite IH. split; intros [rest Hrest]; exists rest.
        -- now rewrite Hrest.
        -- now injection Hrest.
      * split; [discriminate|].
        intros [rest Hrest]. injection Hrest as Hb _. congruence.
Qed.

(** [find_from] never answers a position before the one it starts at. *)
Lemma find_from_ge (pos : nat) (s pat : string) (n : nat) :
  find_from pos s pat = Some n -> (pos <= n)%nat.
Proof.
  revert pos. induction s as [|c s IH]; intros pos; simpl.
  - destruct (is_prefix pat ""); [|discriminate].
    intros [= <-]. lia.
  - destruct (is_prefix pat (String c s)).
    + intros [= <-]. lia.
    + intros Hn. apply IH in Hn. lia.
Qed.

(** [s.find(pat)] is zero exactly when [pat] is a prefix of [s]. *)
Lemma string_find_zero (s pat : string) :
  string_find s pat = 0 <-> is_prefix pat s = true.
Proof.
  unfold string_find.
  destruct (is_prefix pat s) eqn:Hp.
  - destruct s; simpl; simpl in Hp; rewrite Hp; tauto.
  - split; [|discriminate].
    destruct s as [|c s]; simpl; simpl in Hp; rewrite Hp; [discriminate|].
    destruct (find_from 1 s pat) as [n|] eqn:Hn; [|discriminate].
    apply find_from_ge in Hn. lia.
Qed.

(** C5: for a recursive subscription whose mask is zero, [shouldFire]
    answers [true] exactly when the path of the event begins with the path
    of the subscription at offset zero, byte for byte. *)
Theorem shouldFire_recursive_prefix `{Libc}
        (sc : FSEventsSubscriptionContext) (ec : FSEventsEventContext) :
  recursive sc = true ->
  mask sc = 0 ->
  shouldFire sc ec = true <-> exists rest, ec_path ec = path sc +:+ rest.
Proof.
  intros Hrec Hmask. unfold shouldFire.
  rewrite Hrec, Hmask, <- is_prefix_spec, <- string_find_zero. simpl.
  destruct (Z.eqb_spec (string_find (ec_path ec) (path sc)) 0); simpl;
    split; congruence.
Qed.

Lemma shouldFire_recursive_prefix_witness :
  let sc := {| path := "/var/log"; link_ := ""; recursive := true; mask := 0 |} in
  let ec := new_event_context 1%nat 0x100 7 "/var/log/sys/debug.log" in
  @shouldFire libc_no_match sc ec = true.
Proof.
  intros sc ec.
  apply (proj2 (@shouldFire_recursive_prefix libc_no_match sc ec
                  eq_refl eq_refl)).
  exists "/sys/debug.log". reflexivity.
Defined.

(** C6: when the mask of the subscription is not zero and shares no bit with
    the flags of the event, [shouldFire] answers [false], whatever the path
    test says. *)
Theorem shouldFire_mask_mismatch `{Libc}
        (sc : FSEventsSubscriptionContext) (ec : FSEventsEventContext) :
  mask sc <> 0 ->
  Z.land (fsevent_flags ec) (mask sc) = 0 ->
  shouldFire sc ec = false.
Proof.
  intros Hmask Hland. unfold shouldFire. rewrite Hland.
  destruct (Z.eqb_spec (mask sc) 0) as [|_]; [contradiction|].
  simpl. now destruct (if recursive sc then _ else _).
Qed.

Lemma shouldFire_mask_mismatch_witness :
  let sc := {| path := "/var/log"; link_ := ""; recursive := true;
               mask := Z.lor kFSEventStreamEventFlagItemRemoved
                             kFSEventStreamEventFlagItemCreated |} in
  let ec := new_event_context 1%nat kFSEventStreamEventFlagItemModified 7
                              "/var/log/sys/debug.log" in
  is_prefix (path sc) (ec_path ec) = true /\
  @shouldFire libc_no_match sc ec = false.
Proof.
  intros sc ec. split; [reflexivity|].
  apply (@shouldFire_mask_mismatch libc_no_match sc ec).
  - vm_compute. discriminate.
  - reflexivity.
Defined.

(** ** The flag-to-action table *)

Lemma map_insert_keys (k : Z) (v : string) (m : list (Z * string)) (x : Z) :
  In x (keys (map_insert k v m)) -> x = k \/ In x (keys m).
Proof.
  induction m as [|[k' v'] m IH]; simpl.
  - intuition congruence.
  - destruct (k <? k'); [simpl; intuition congruence|].
    destruct (k =? k'); simpl; intuition congruence.
Qed.

Lemma map_insert_sorted (k : Z) (v : string) (m : list (Z * string)) :
  StronglySorted Z.lt (keys m) ->
  StronglySorted Z.lt (keys (map_insert k v m)).
Proof.
  induction m as [|[k' v'] m IH]; simpl; intros Hs.
  - repeat constructor.
  - apply StronglySorted_inv in Hs as [Hs Hall].
    destruct (Z.ltb_spec k k') as [Hlt|Hge].
    + simpl. constructor.
      * now constructor.
      * constructor; [exact Hlt|].
        eapply List.Forall_impl; [|exact Hall]. simpl. intros; lia.
    + destruct (Z.eqb_spec k k') as [->|Hne]; simpl.
      * now constructor.
      * constructor; [now apply IH|].
        apply List.Forall_forall. intros x Hx.
        apply map_insert_keys in Hx as [->|Hx]; [lia|].
        rewrite List.Forall_forall in Hall. now apply Hall.
Qed.

(** Whatever the initializer list, the map is iterated in strictly
    ascending key order. *)
Lemma map_of_initializer_list_sorted (l : list (Z * string)) :
  StronglySorted Z.lt (keys (map_of_initializer_list l)).
Proof.
  unfold map_of_initializer_list.
  assert (Hgen : forall m, StronglySorted Z.lt (keys m) ->
     StronglySorted Z.lt
       (keys (fold_left (fun m e => map_insert (fst e) (snd e) m) l m))).
  { induction l as [|e l IH]; intros m Hm; simpl; [exact Hm|].
    apply IH. now apply map_insert_sorted. }
  apply Hgen. constructor.
Qed.

(** The entries of [kMaskActions] in iteration order. *)
Lemma kMaskActions_entries :
  kMaskActions =
  [ (kFSEventStreamEventFlagMustScanSubDirs, "COLLISION_WITHIN");
    (kFSEventStreamEventFlagRootChanged, "ROOT_CHANGED");
    (kFSEventStreamEventFlagUnmount, "UNMOUNTED");
    (kFSEventStreamEventFlagItemCreated, "CREATED");
    (kFSEventStreamEventFlagItemRemoved, "DELETED");
    (kFSEventStreamEventFlagItemInodeMetaMod, "ATTRIBUTES_MODIFIED");
    (kFSEventStreamEventFlagItemRenamed, "MOVED_TO");
    (kFSEventStreamEventFlagItemModified, "UPDATED");
    (kFSEventStreamEventFlagItemChangeOwner, "ATTRIBUTES_MODIFIED");
    (kFSEventStreamEventFlagItemXattrMod, "ATTRIBUTES_MODIFIED") ].
Proof. reflexivity. Qed.

(** ** The callback bridge *)

Lemma set_action_set_action (a b : string) (ec : FSEventsEventContext) :
  set_action a (set_action b ec) = set_action a ec.
Proof. reflexivity. Qed.

(** The loop over the table, in closed form: one [fire] per matching entry,
    in table order, each with the fields of the context it started from and
    the label of the entry. *)
Lemma mask_loop_spec (table : list (Z * string)) (ec : FSEventsEventContext)
      (has_action : bool) (out : list CallbackEffect) :
  let ms := matching (fsevent_flags ec) table in
  fold_left mask_loop_step table (ec, has_action, out) =
  (fold_left (fun ec e => set_action (snd e) ec) ms ec,
   has_action || negb (forallb (fun _ => false) ms),
   out ++ map (fun e => fire (set_action (snd e) ec)) ms).
Proof.
  revert ec has_action out.
  induction table as [|e table IH]; intros ec has_action out; simpl.
  - now rewrite orb_false_r, app_nil_r.
  - unfold matching; simpl.
    destruct (has_flag (fsevent_flags ec) (fst e)) eqn:He; simpl.
    + rewrite IH. simpl. unfold matching.
      rewrite orb_true_r, <- app_assoc. simpl.
      reflexivity.
    + apply IH.
Qed.

(** The [fire] calls of one raw event: the labels of the matching entries
    of [kMaskActions] in iteration order, or [UNKNOWN] alone when there is
    none; always on the context built from the raw event. *)
Lemma fired_Callback_event (stream : FSEventStreamRef) (p : string)
      (flags id : Z) :
  fired (Callback_event stream p flags id) =
  map (fun a => set_action a (new_event_context stream flags id p))
      (match matching flags kMaskActions with
       | [] => ["UNKNOWN"]
       | ms => map snd ms
       end).
Proof.
  unfold Callback_event.
  rewrite mask_loop_spec. simpl fsevent_flags.
  set (ec := new_event_context stream flags id p).
  set (log := if has_flag flags _ then _ else _).
  assert (Hlog : fired log = []) by (subst log; now destruct (has_flag _ _)).
  assert (Happ : forall a b, fired (a ++ b) = fired a ++ fired b)
    by (intros; apply omap_app).
  destruct (matching flags kMaskActions) as [|e ms]; simpl.
  - now rewrite !Happ, Hlog.
  - rewrite Happ, Hlog. simpl. f_equal.
    induction ms as [|e' ms IH]; simpl; [reflexivity|]. now f_equal.
Qed.

Lemma matching_sorted (flags : Z) (table : list (Z * string)) :
  StronglySorted Z.lt (keys table) ->
  StronglySorted Z.lt (keys (matching flags table)).
Proof.
  induction table as [|e table IH]; simpl; intros Hs; [constructor|].
  apply StronglySorted_inv in Hs as [Hs Hall].
  destruct (has_flag flags (fst e)); simpl; [|now apply IH].
  constructor; [now apply IH|].
  rewrite List.Forall_forall in *. intros k Hk. apply Hall.
  unfold keys, matching in *. rewrite in_map_iff in *.
  destruct Hk as (e' & <- & He'). exists e'. split; [reflexivity|].
  now apply filter_In in He'.
Qed.

(** When a table bit has to be off because the only bits allowed to match
    are two others. *)
Ltac table_bit_off Honly :=
  match goal with
  | |- has_flag ?flags ?bit = false =>
      destruct (has_flag flags bit) eqn:Hbit; [|reflexivity];
      exfalso;
      match type of Honly with
      | forall e, In e ?table -> _ =>
          let Hin := fresh "Hin" in
          assert (Hin : exists a, In (bit, a) table)
            by (eexists; simpl; eauto 12);
          destruct Hin as [a Hin];
          destruct (Honly (bit, a) Hin Hbit) as [Heq|Heq]; discriminate Heq
      end
  end.

(** One raw event with two or more bits of the flag-to-action table set:
    one [fire] call per matching entry of the table, in ascending order of
    the bits; when the matching bits are the inode-metadata bit and the
    content-modified bit, the calls are two, with the actions
    ATTRIBUTES_MODIFIED and UPDATED in that order. *)
Lemma Callback_event_fires_per_matching_entry
        (stream : FSEventStreamRef) (p : string) (flags id : Z) :
  let ms := matching flags kMaskActions in
  let calls := fired (Callback_event stream p flags id) in
  (2 <= length ms)%nat ->
  StronglySorted Z.lt (keys kMaskActions) /\
  StronglySorted Z.lt (keys ms) /\
  length calls = length ms /\
  map action calls = map snd ms /\
  (has_flag flags kFSEventStreamEventFlagItemInodeMetaMod = true ->
   has_flag flags kFSEventStreamEventFlagItemModified = true ->
   (forall e, In e kMaskActions -> has_flag flags (fst e) = true ->
              fst e = kFSEventStreamEventFlagItemInodeMetaMod \/
              fst e = kFSEventStreamEventFlagItemModified) ->
   map action calls = ["ATTRIBUTES_MODIFIED"; "UPDATED"]).
Proof.
  intros ms calls Hlen.
  assert (Hsorted : StronglySorted Z.lt (keys kMaskActions))
    by apply map_of_initializer_list_sorted.
  assert (Hcalls : calls = map (fun a => set_action a
                      (new_event_context stream flags id p)) (map snd ms)).
  { subst calls. rewrite fired_Callback_event. fold ms.
    destruct ms as [|e ms']; [simpl in Hlen; lia | reflexivity]. }
  assert (Hactions : map action calls = map snd ms).
  { rewrite Hcalls, map_map. simpl. apply map_id. }
  split; [exact Hsorted|].
  split; [now apply matching_sorted|].
  split; [now rewrite Hcalls, !length_map|].
  split; [exact Hactions|].
  intros Hinode Hmodified Honly.
  rewrite Hactions. subst ms. unfold matching.
  rewrite kMaskActions_entries in *. cbn [List.filter fst].
  rewrite Hinode, Hmodified.
  replace (has_flag flags kFSEventStreamEventFlagMustScanSubDirs) with false
    by (symmetry; table_bit_off Honly).
  replace (has_flag flags kFSEventStreamEventFlagRootChanged) with false
    by (symmetry; table_bit_off Honly).
  replace (has_flag flags kFSEventStreamEventFlagUnmount) with false
    by (symmetry; table_bit_off Honly).
  replace (has_flag flags kFSEventStreamEventFlagItemCreated) with false
    by (symmetry; table_bit_off Honly).
  replace (has_flag flags kFSEventStreamEventFlagItemRemoved) with false
    by (symmetry; table_bit_off Honly).
  replace (has_flag flags kFSEventStreamEventFlagItemRenamed) with false
    by (symmetry; table_bit_off Honly).
  replace (has_flag flags kFSEventStreamEventFlagItemChangeOwner) with false
    by (symmetry; table_bit_off Honly).
  replace (has_flag flags kFSEventStreamEventFlagItemXattrMod) with false
    by (symmetry; table_bit_off Honly).
  reflexivity.
Qed.

Lemma matching_none (flags : Z) (table : list (Z * string)) :
  (forall e, In e table -> Z.land flags (fst e) = 0) ->
  matching flags table = [].
Proof.
  induction table as [|e table IH]; simpl; intros Hnone; [reflexivity|].
  unfold has_flag. rewrite (Hnone e) by now left. simpl.
  apply IH. intros e' He'. apply Hnone. now right.
Qed.

(** One raw event whose flags hold none of the bits of the flag-to-action
    table: exactly one [fire] call, and the action of its record is
    UNKNOWN. *)
Lemma Callback_event_unknown_without_table_bit
        (stream : FSEventStreamRef) (p : string) (flags id : Z) :
  (forall e, In e kMaskActions -> Z.land flags (fst e) = 0) ->
  fired (Callback_event stream p flags id) =
  [set_action "UNKNOWN" (new_event_context stream flags id p)].
Proof.
  intros Hnone.
  now rewrite fired_Callback_event, (matching_none _ _ Hnone).
Qed.

(** [Callback] goes through the batch index by index: it is defined when
    the three arrays hold [num_events] entries from [i] on, and the effects
    at offset [j] are those of the raw event at index [i + j]. *)
Lemma Callback_from_spec (stream : FSEventStreamRef) (num_events i : nat)
      (event_paths : list string) (flags ids : list Z) :
  (i + num_events <= length event_paths)%nat ->
  (i + num_events <= length flags)%nat ->
  (i + num_events <= length ids)%nat ->
  exists groups,
    Callback_from stream i num_events event_paths flags ids = Some groups /\
    length groups = num_events /\
    forall j group, groups !! j = Some group ->
      exists p f id,
        event_paths !! (i + j)%nat = Some p /\
        flags !! (i + j)%nat = Some f /\
        ids !! (i + j)%nat = Some id /\
        group = Callback_event stream p f id.
Proof.
  revert i. induction num_events as [|n IH]; intros i Hp Hf Hi.
  - exists []. repeat split. intros j group Hj. discriminate.
  - destruct (lookup_lt_is_Some_2 event_paths i) as [p Hlp]; [lia|].
    destruct (lookup_lt_is_Some_2 flags i) as [f Hlf]; [lia|].
    destruct (lookup_lt_is_Some_2 ids i) as [id Hli]; [lia|].
    destruct (IH (S i)) as (rest & Hrest & Hlen & Hgroups); [lia..|].
    exists (Callback_event stream p f id :: rest).
    split; [|split].
    + simpl. rewrite Hlp, Hlf, Hli. simpl. now rewrite Hrest.
    + simpl. now rewrite Hlen.
    + intros [|j] group Hj; simpl in Hj.
      * injection Hj as <-. exists p, f, id.
        now rewrite Nat.add_0_r.
      * destruct (Hgroups j group Hj) as (p' & f' & id' & ? & ? & ? & ?).
        exists p', f', id'.
        now replace (i + S j)%nat with (S i + j)%nat by lia.
Qed.

(** What [Callback] does with a batch: it is defined, its effects are those
    of the raw events one after the other, and the effects at an index are
    those of the loop body on the path, flags and id found there. *)
Lemma Callback_groups (stream : FSEventStreamRef) (num_events : nat)
      (event_paths : list string) (flags ids : list Z) :
  (num_events <= length event_paths)%nat ->
  (num_events <= length flags)%nat ->
  (num_events <= length ids)%nat ->
  exists groups,
    Callback_from stream 0 num_events event_paths flags ids = Some groups /\
    Callback stream num_events event_paths flags ids = Some (concat groups) /\
    length groups = num_events /\
    forall i group, groups !! i = Some group ->
      exists p f id,
        event_paths !! i = Some p /\
        flags !! i = Some f /\
        ids !! i = Some id /\
        group = Callback_event stream p f id.
Proof.
  intros Hp Hf Hi.
  destruct (Callback_from_spec stream num_events 0 event_paths flags ids)
    as (groups & Hgroups & Hlen & Hspec); [lia..|].
  exists groups. split; [exact Hgroups|].
  split; [unfold Callback; now rewrite Hgroups|].
  split; [exact Hlen|exact Hspec].
Qed.

(** C3: for every raw event of a batch given to [Callback] whose flags hold
    two or more bits of the flag-to-action table, [Callback] makes one
    [fire] call per matching entry of the table, in ascending order of the
    bits; and when the matching bits are the inode-metadata bit and the
    content-modified bit, the calls for that event are two, with the
    actions ATTRIBUTES_MODIFIED and UPDATED in that order. *)
Theorem Callback_fires_per_matching_entry
        (stream : FSEventStreamRef) (num_events : nat)
        (event_paths : list string) (flags ids : list Z) :
  (num_events <= length event_paths)%nat ->
  (num_events <= length flags)%nat ->
  (num_events <= length ids)%nat ->
  exists groups,
    Callback_from stream 0 num_events event_paths flags ids = Some groups /\
    Callback stream num_events event_paths flags ids = Some (concat groups) /\
    length groups = num_events /\
    StronglySorted Z.lt (keys kMaskActions) /\
    forall i f group,
      flags !! i = Some f -> groups !! i = Some group ->
      let ms := matching f kMaskActions in
      (2 <= length ms)%nat ->
      StronglySorted Z.lt (keys ms) /\
      length (fired group) = length ms /\
      map action (fired group) = map snd ms /\
      (has_flag f kFSEventStreamEventFlagItemInodeMetaMod = true ->
       has_flag f kFSEventStreamEventFlagItemModified = true ->
       (forall e, In e kMaskActions -> has_flag f (fst e) = true ->
                  fst e = kFSEventStreamEventFlagItemInodeMetaMod \/
                  fst e = kFSEventStreamEventFlagItemModified) ->
       map action (fired group) = ["ATTRIBUTES_MODIFIED"; "UPDATED"]).
Proof.
  intros Hp Hf Hi.
  destruct (Callback_groups stream num_events event_paths flags ids Hp Hf Hi)
    as (groups & Hfrom & Hcallback & Hlen & Hspec).
  exists groups. split; [exact Hfrom|]. split; [exact Hcallback|].
  split; [exact Hlen|].
  split; [apply map_of_initializer_list_sorted|].
  intros i f group Hflags Hgroup ms Hms.
  destruct (Hspec i group Hgroup) as (p & f' & id & _ & Hf' & _ & ->).
  assert (f' = f) as -> by congruence.
  destruct (Callback_event_fires_per_matching_entry stream p f id Hms)
    as (_ & Hsorted & Hcount & Hactions & Hboth).
  repeat split; assumption.
Qed.

Lemma Callback_fires_per_matching_entry_witness :
  exists groups,
    Callback 7%nat 2 ["/tmp/a.txt"; "/tmp/b"] [0x1400; 0x10000] [41; 42]
    = Some (concat groups) /\
    map (fun group => map action (fired group)) groups =
    [ ["ATTRIBUTES_MODIFIED"; "UPDATED"]; ["UNKNOWN"] ] /\
    (2 <= length (matching 0x1400 kMaskActions))%nat.
Proof.
  destruct (Callback_fires_per_matching_entry
              7%nat 2 ["/tmp/a.txt"; "/tmp/b"] [0x1400; 0x10000] [41; 42])
    as (groups & Hfrom & Hcallback & _ & _ & Hevents); [simpl; lia..|].
  exists groups. split; [exact Hcallback|].
  assert (Hlen : (2 <= length (matching 0x1400 kMaskActions))%nat)
    by (vm_compute; lia).
  split; [|exact Hlen].
  destruct groups as [|first [|second [|third rest]]];
    try (vm_compute in Hfrom; discriminate Hfrom).
  destruct (Hevents 0%nat 0x1400 first eq_refl eq_refl Hlen)
    as (_ & _ & _ & Hboth).
  simpl. rewrite Hboth.
  - vm_compute in Hfrom. injection Hfrom as _ <-. reflexivity.
  - reflexivity.
  - reflexivity.
  - intros e He. rewrite kMaskActions_entries in He. simpl in He.
    repeat (destruct He as [<-|He];
            [vm_compute; intros; try discriminate; tauto|]).
    contradiction.
Defined.

(** C7: for every raw event of a batch given to [Callback] whose flags hold
    none of the bits of the flag-to-action table, [Callback] makes exactly
    one [fire] call, and the action of its record is UNKNOWN. *)
Theorem Callback_unknown_without_table_bit
        (stream : FSEventStreamRef) (num_events : nat)
        (event_paths : list string) (flags ids : list Z) :
  (num_events <= length event_paths)%nat ->
  (num_events <= length flags)%nat ->
  (num_events <= length ids)%nat ->
  exists groups,
    Callback_from stream 0 num_events event_paths flags ids = Some groups /\
    Callback stream num_events event_paths flags ids = Some (concat groups) /\
    length groups = num_events /\
    forall i p f id group,
      event_paths !! i = Some p -> flags !! i = Some f ->
      ids !! i = Some id -> groups !! i = Some group ->
      (forall e, In e kMaskActions -> Z.land f (fst e) = 0) ->
      fired group = [set_action "UNKNOWN" (new_event_context stream f id p)].
Proof.
  intros Hp Hf Hi.
  destruct (Callback_groups stream num_events event_paths flags ids Hp Hf Hi)
    as (groups & Hfrom & Hcallback & Hlen & Hspec).
  exists groups. split; [exact Hfrom|]. split; [exact Hcallback|].
  split; [exact Hlen|].
  intros i p f id group Hpath Hflags Hid Hgroup Hnone.
  destruct (Hspec i group Hgroup) as (p' & f' & id' & Hp' & Hf' & Hi' & ->).
  assert (p' = p) as -> by congruence.
  assert (f' = f) as -> by congruence.
  assert (id' = id) as -> by congruence.
  now apply Callback_event_unknown_without_table_bit.
Qed.

(** The flags of the second raw event of the witness are
    [kFSEventStreamEventFlagItemIsFile] (0x10000 in FSEvents.h), a bit the
    table does not hold. *)
Lemma Callback_unknown_without_table_bit_witness :
  exists groups,
    Callback 7%nat 2 ["/tmp/a.txt"; "/tmp/b"] [0x1400; 0x10000] [41; 42]
    = Some (concat groups) /\
    (fired <$> groups !! 1%nat) =
    Some [ {| fsevent_stream := 7%nat; fsevent_flags := 0x10000;
              transaction_id := 42; ec_path := "/tmp/b";
              action := "UNKNOWN" |} ].
Proof.
  destruct (Callback_unknown_without_table_bit
              7%nat 2 ["/tmp/a.txt"; "/tmp/b"] [0x1400; 0x10000] [41; 42])
    as (groups & Hfrom & Hcallback & _ & Hevents); [simpl; lia..|].
  exists groups. split; [exact Hcallback|].
  destruct groups as [|first [|second [|third rest]]];
    try (vm_compute in Hfrom; discriminate Hfrom).
  simpl. f_equal.
  apply (Hevents 1%nat "/tmp/b" 0x10000 42 second); try reflexivity.
  intros e He. rewrite kMaskActions_entries in He. simpl in He.
  repeat (destruct He as [<-|He]; [reflexivity|]).
  contradiction.
Defined.

(** C10: all the [fire] calls made for one raw event of a batch carry the
    stream of the batch and the path, flags and transaction id found at the
    index of that event; two calls for the same raw event differ in the
    action at most. *)
Theorem Callback_fire_calls_share_event_fields
        (stream : FSEventStreamRef) (num_events : nat)
        (event_paths : list string) (flags ids : list Z) :
  (num_events <= length event_paths)%nat ->
  (num_events <= length flags)%nat ->
  (num_events <= length ids)%nat ->
  exists groups,
    Callback_from stream 0 num_events event_paths flags ids = Some groups /\
    Callback stream num_events event_paths flags ids = Some (concat groups) /\
    length groups = num_events /\
    forall i group, groups !! i = Some group ->
      fired group <> [] /\
      (forall ec, In ec (fired group) ->
         fsevent_stream ec = stream /\
         event_paths !! i = Some (ec_path ec) /\
         flags !! i = Some (fsevent_flags ec) /\
         ids !! i = Some (transaction_id ec)) /\
      (forall ec1 ec2, In ec1 (fired group) -> In ec2 (fired group) ->
         set_action (action ec1) ec2 = ec1).
Proof.
  intros Hp Hf Hi.
  destruct (Callback_from_spec stream num_events 0 event_paths flags ids)
    as (groups & Hgroups & Hlen & Hspec); [lia..|].
  exists groups. split; [exact Hgroups|]. split; [|split; [exact Hlen|]].
  - unfold Callback. now rewrite Hgroups.
  - intros i group Hgroup.
    destruct (Hspec i group Hgroup) as (p & f & id & Hlp & Hlf & Hli & ->).
    simpl in Hlp, Hlf, Hli.
    rewrite fired_Callback_event.
    set (labels := match matching f kMaskActions with
                   | [] => ["UNKNOWN"] | ms => map snd ms end).
    assert (Hfield : forall ec,
      In ec (map (fun a => set_action a (new_event_context stream f id p)) labels) ->
      exists a, ec = set_action a (new_event_context stream f id p)).
    { intros ec Hec. apply in_map_iff in Hec as (a & <- & _). now exists a. }
    split; [|split].
    + subst labels. now destruct (matching f kMaskActions).
    + intros ec Hec. destruct (Hfield ec Hec) as [a ->]. simpl.
      now rewrite Hlp, Hlf, Hli.
    + intros ec1 ec2 H1 H2.
      destruct (Hfield ec1 H1) as [a1 ->], (Hfield ec2 H2) as [a2 ->].
      reflexivity.
Qed.

Lemma Callback_fire_calls_share_event_fields_witness :
  exists groups,
    Callback 7%nat 2 ["/tmp/a.txt"; "/tmp/b"] [0x1400; 0x10000] [41; 42]
    = Some (concat groups) /\
    map fired groups =
    [ [ {| fsevent_stream := 7%nat; fsevent_flags := 0x1400;
           transaction_id := 41; ec_path := "/tmp/a.txt";
           action := "ATTRIBUTES_MODIFIED" |};
        {| fsevent_stream := 7%nat; fsevent_flags := 0x1400;
           transaction_id := 41; ec_path := "/tmp/a.txt";
           action := "UPDATED" |} ];
      [ {| fsevent_stream := 7%nat; fsevent_flags := 0x10000;
           transaction_id := 42; ec_path := "/tmp/b";
           action := "UNKNOWN" |} ] ].
Proof.
  destruct (Callback_fire_calls_share_event_fields
              7%nat 2 ["/tmp/a.txt"; "/tmp/b"] [0x1400; 0x10000] [41; 42])
    as (groups & Hfrom & Hcallback & _); [simpl; lia..|].
  exists groups. split; [exact Hcallback|].
  vm_compute in Hfrom. injection Hfrom as <-. reflexivity.
Defined.

(** ** Running a member function *)

Section Projections.
Context {A B : Type}.
Implicit Types (s : PublisherState) (m : M A) (f : A -> M B).

Lemma bind_unfold m f s :
  (m ≫= f) s =
  (result (f (result (m s)) (state_of (m s))),
   state_of (f (result (m s)) (state_of (m s))),
   calls (m s) ++ calls (f (result (m s)) (state_of (m s)))).
Proof.
  unfold mbind, M_bind, result, state_of, calls.
  destruct (m s) as [[a s1] t1]. simpl.
  now destruct (f a s1) as [[b s2] t2].
Qed.

Lemma state_bind m f s :
  state_of ((m ≫= f) s) = state_of (f (result (m s)) (state_of (m s))).
Proof. now rewrite bind_unfold. Qed.

Lemma result_bind m f s :
  result ((m ≫= f) s) = result (f (result (m s)) (state_of (m s))).
Proof. now rewrite bind_unfold. Qed.

Lemma calls_bind m f s :
  calls ((m ≫= f) s) =
  calls (m s) ++ calls (f (result (m s)) (state_of (m s))).
Proof. now rewrite bind_unfold. Qed.

Lemma state_ret (x : A) s : state_of (mret (M := M) x s) = s.
Proof. reflexivity. Qed.
Lemma result_ret (x : A) s : result (mret (M := M) x s) = x.
Proof. reflexivity. Qed.
Lemma calls_ret (x : A) s : calls (mret (M := M) x s) = [].
Proof. reflexivity. Qed.
End Projections.

Lemma state_get s : state_of (get s) = s.
Proof. reflexivity. Qed.
Lemma result_get s : result (get s) = s.
Proof. reflexivity. Qed.
Lemma calls_get s : calls (get s) = [].
Proof. reflexivity. Qed.
Lemma state_call c s : state_of (call c s) = s.
Proof. reflexivity. Qed.
Lemma calls_call c s : calls (call c s) = [c].
Proof. reflexivity. Qed.
Lemma state_modify f s : state_of (modify f s) = f s.
Proof. reflexivity. Qed.
Lemma calls_modify f s : calls (modify f s) = [].
Proof. reflexivity. Qed.

Lemma for_each_call {A} (l : list A) (c : A -> Call) (s : PublisherState) :
  for_each l (fun x => call (c x)) s = (tt, s, map c l).
Proof.
  unfold for_each. revert s.
  induction l as [|x l IH]; intros s; simpl; [reflexivity|].
  rewrite bind_unfold, state_call, IH. reflexivity.
Qed.

Lemma state_for_each_call {A} (l : list A) (c : A -> Call) s :
  state_of (for_each l (fun x => call (c x)) s) = s.
Proof. now rewrite for_each_call. Qed.

Lemma calls_for_each_call {A} (l : list A) (c : A -> Call) s :
  calls (for_each l (fun x => call (c x)) s) = map c l.
Proof. now rewrite for_each_call. Qed.

Create Rewrite HintDb m_run.
#[local] Hint Rewrite
  @state_bind @result_bind @calls_bind @state_ret @result_ret @calls_ret
  state_get result_get calls_get state_call calls_call state_modify
  calls_modify @state_for_each_call @calls_for_each_call : m_run.

(** ** The stream lifecycle *)

(** What [stop] leaves: no stream, and [stream_started_] cleared if there
    was one. *)
Lemma stop_state (s : PublisherState) :
  state_of (stop s) =
  match stream_ s with
  | Some _ => set_stream None (set_started false s)
  | None => s
  end.
Proof. destruct s as [ps [st|] b [l|]]; reflexivity. Qed.

(** What [restart] leaves, for each answer of the native side. *)
Lemma restart_state (native : Native) (s : PublisherState) :
  state_of (restart native s) =
  if decide (paths_ s = ∅) then s
  else match run_loop_ s with
       | None => s
       | Some _ =>
           let s1 := state_of (stop s) in
           match FSEventStreamCreate_result native with
           | Some st =>
               if FSEventStreamStart_result native
               then set_started true (set_stream (Some st) s1)
               else set_stream (Some st) s1
           | None => set_stream None s1
           end
       end.
Proof.
  unfold restart. autorewrite with m_run.
  destruct (decide (paths_ s = ∅)); [reflexivity|].
  destruct (run_loop_ s) eqn:Hl; [|reflexivity].
  autorewrite with m_run.
  destruct (FSEventStreamCreate_result native);
    [destruct (FSEventStreamStart_result native)|];
    autorewrite with m_run; reflexivity.
Qed.

Lemma tearDown_state (s : PublisherState) :
  state_of (tearDown s) = set_run_loop None (state_of (stop s)).
Proof. unfold tearDown. now autorewrite with m_run. Qed.

Lemma run_state (native : Native) (s : PublisherState) :
  state_of (run native s) =
  match run_loop_ s with
  | None =>
      state_of (restart native
        (set_run_loop (Some (CFRunLoopGetCurrent_result native)) s))
  | Some _ => s
  end.
Proof.
  unfold run. autorewrite with m_run.
  destruct (run_loop_ s); now autorewrite with m_run.
Qed.

Lemma flush_state (async : bool) (s : PublisherState) :
  state_of (flush async s) = s.
Proof.
  unfold flush. autorewrite with m_run.
  destruct (stream_ s); [|reflexivity].
  destruct (stream_started_ s); [|reflexivity].
  now destruct async.
Qed.

Section ConfigureFacts.
Context {path_ops : PathOps}.

(** The loop of [configure] resolves every subscription, adds the
    resolved paths to [paths_] and calls nothing. *)
Lemma configure_loop_spec (fs : FileSystem)
      (subscriptions : list FSEventsSubscriptionContext) (s : PublisherState) :
  configure_loop fs subscriptions s =
  (map (resolve fs) subscriptions,
   set_paths (list_to_set (map path (map (resolve fs) subscriptions))
              ∪ paths_ s) s,
   []).
Proof.
  revert s. induction subscriptions as [|sub rest IH]; intros s.
  - simpl. unfold mret, M_ret. f_equal. f_equal.
    destruct s as [ps st b l]. unfold set_paths. simpl. f_equal.
    now rewrite (left_id_L ∅ (∪)).
  - simpl. rewrite !bind_unfold. autorewrite with m_run.
    rewrite IH. unfold result, state_of, calls. simpl.
    f_equal. f_equal. unfold set_paths. simpl. f_equal.
    rewrite (assoc_L (∪)). f_equal. apply (comm_L (∪)).
Qed.

Lemma configure_result (fs : FileSystem) (native : Native)
      (subscriptions : list FSEventsSubscriptionContext) (s : PublisherState) :
  result (configure fs native subscriptions s) =
  map (resolve fs) subscriptions.
Proof.
  unfold configure. autorewrite with m_run.
  now rewrite configure_loop_spec.
Qed.

Lemma configure_state (fs : FileSystem) (native : Native)
      (subscriptions : list FSEventsSubscriptionContext) (s : PublisherState) :
  let s1 := set_paths
              (list_to_set (map path (map (resolve fs) subscriptions))) s in
  state_of (configure fs native subscriptions s) =
  if decide (paths_ s1 = ∅) then s1 else state_of (restart native s1).
Proof.
  intros s1.
  assert (Hloop : configure_loop fs subscriptions (set_paths ∅ s) =
                  (map (resolve fs) subscriptions, s1, [])).
  { rewrite configure_loop_spec. f_equal. f_equal.
    subst s1. unfold set_paths. simpl. f_equal.
    now rewrite (right_id_L ∅ (∪)). }
  unfold configure. autorewrite with m_run. rewrite Hloop.
  change (state_of (map (resolve fs) subscriptions, s1, [])) with s1.
  destruct (decide (paths_ s1 = ∅)); now autorewrite with m_run.
Qed.
End ConfigureFacts.

Lemma restart_paths (native : Native) (s : PublisherState) :
  paths_ (state_of (restart native s)) = paths_ s.
Proof.
  rewrite restart_state, stop_state.
  destruct (decide (paths_ s = ∅)); [reflexivity|].
  destruct (run_loop_ s); [|reflexivity].
  destruct (FSEventStreamCreate_result native);
    [destruct (FSEventStreamStart_result native)|];
    now destruct (stream_ s).
Qed.

Lemma stop_started_has_stream (s : PublisherState) :
  started_has_stream s -> started_has_stream (state_of (stop s)).
Proof.
  unfold started_has_stream. rewrite stop_state.
  destruct (stream_ s) eqn:Hst; simpl; [discriminate|].
  now rewrite Hst.
Qed.

Lemma restart_started_has_stream (native : Native) (s : PublisherState) :
  started_has_stream s -> started_has_stream (state_of (restart native s)).
Proof.
  intros Hinv. rewrite restart_state.
  destruct (decide (paths_ s = ∅)); [exact Hinv|].
  destruct (run_loop_ s); [|exact Hinv].
  unfold started_has_stream in *. rewrite stop_state.
  destruct (FSEventStreamCreate_result native);
    [destruct (FSEventStreamStart_result native)|];
    destruct (stream_ s) eqn:Hst; simpl; intros Hstarted;
    try discriminate; apply Hinv in Hstarted; congruence.
Qed.

Section Lifecycle.
Context {path_ops : PathOps}.

Lemma exec_started_has_stream (native : Native) (op : Op) (s : PublisherState) :
  started_has_stream s -> started_has_stream (exec native op s).
Proof.
  intros Hinv. destruct op as [fs subs| | | | | |async]; simpl.
  - rewrite configure_state.
    match goal with |- context [decide ?P] => destruct (decide P) end;
      [exact Hinv | now apply restart_started_has_stream].
  - now apply restart_started_has_stream.
  - rewrite run_state. destruct (run_loop_ s); [exact Hinv|].
    now apply restart_started_has_stream.
  - now apply stop_started_has_stream.
  - now apply stop_started_has_stream.
  - rewrite tearDown_state. now apply stop_started_has_stream.
  - now rewrite flush_state.
Qed.

Lemma reachable_started_has_stream (s : PublisherState) :
  reachable s -> started_has_stream s.
Proof.
  induction 1 as [|s native op _ IH].
  - discriminate.
  - now apply exec_started_has_stream.
Qed.
End Lifecycle.

Lemma state_running_reachable : @reachable posix_paths state_running.
Proof. do 2 apply reachable_exec. apply reachable_initial. Qed.

Lemma state_start_failed_reachable : @reachable posix_paths state_start_failed.
Proof. do 2 apply reachable_exec. apply reachable_initial. Qed.

Lemma state_running_fields :
  stream_ state_running = Some 1%nat /\
  stream_started_ state_running = true /\
  run_loop_ state_running = Some 2%nat /\
  paths_ state_running = {[ "/tmp" ]}.
Proof. vm_compute. repeat split. Qed.

(** The states reached while every start succeeds are states the
    publisher can reach. *)
Lemma reachable_starting_reachable `{PathOps} (s : PublisherState) :
  reachable_starting s -> reachable s.
Proof.
  induction 1 as [|s native op _ _ IH];
    [apply reachable_initial | now apply reachable_exec].
Qed.

Lemma restart_stream_is_started (native : Native) (s : PublisherState) :
  FSEventStreamStart_result native = true ->
  stream_is_started s -> stream_is_started (state_of (restart native s)).
Proof.
  intros Hstart Hinv. unfold stream_is_started in *.
  rewrite restart_state, stop_state, Hstart.
  destruct (decide (paths_ s = ∅)); [exact Hinv|].
  destruct (run_loop_ s); [|exact Hinv].
  destruct (FSEventStreamCreate_result native), (stream_ s);
    simpl; congruence.
Qed.

Lemma stop_stream_none (s : PublisherState) :
  stream_ (state_of (stop s)) = None.
Proof. rewrite stop_state. destruct (stream_ s) eqn:Hst; simpl; now rewrite ?Hst. Qed.

Lemma exec_stream_is_started `{PathOps} (native : Native) (op : Op)
      (s : PublisherState) :
  FSEventStreamStart_result native = true ->
  stream_is_started s -> stream_is_started (exec native op s).
Proof.
  intros Hstart Hinv. destruct op as [fs subs| | | | | |async]; cbn [exec].
  - rewrite configure_state.
    match goal with |- context [decide ?P] => destruct (decide P) end;
      [exact Hinv | now apply restart_stream_is_started].
  - now apply restart_stream_is_started.
  - rewrite run_state. destruct (run_loop_ s); [exact Hinv|].
    now apply restart_stream_is_started.
  - intros Hheld. now rewrite stop_stream_none in Hheld.
  - intros Hheld. unfold end_ in Hheld. now rewrite stop_stream_none in Hheld.
  - rewrite tearDown_state. intros Hheld. simpl in Hheld.
    now rewrite stop_stream_none in Hheld.
  - now rewrite flush_state.
Qed.

(** C1, as the code has it: in every state reached while each
    [FSEventStreamStart] succeeds (a creation may fail), the stream handle is
    not null only when [stream_started_] is true.  A failed start is the one
    exception: [restart] then leaves the handle of the stream it created in
    place with [stream_started_] false.  A failed creation leaves the
    handle null and [stream_started_] false.  In every state the publisher
    can reach, [stream_started_] is true only when the handle is not
    null. *)
Theorem stream_only_when_started `{PathOps} (s : PublisherState) :
  (reachable_starting s ->
   stream_ s <> None -> stream_started_ s = true) /\
  (reachable s ->
   (stream_started_ s = true -> stream_ s <> None) /\
   (forall native,
      paths_ s <> ∅ -> run_loop_ s <> None ->
      FSEventStreamCreate_result native = None ->
      stream_ (state_of (restart native s)) = None /\
      stream_started_ (state_of (restart native s)) = false) /\
   (forall native st,
      paths_ s <> ∅ -> run_loop_ s <> None ->
      FSEventStreamCreate_result native = Some st ->
      FSEventStreamStart_result native = false ->
      stream_ (state_of (restart native s)) = Some st /\
      stream_started_ (state_of (restart native s)) = false)).
Proof.
  split.
  - induction 1 as [|s native op Hstart _ IH]; [intros []; reflexivity|].
    now apply exec_stream_is_started.
  - intros Hreach. apply reachable_started_has_stream in Hreach.
    unfold started_has_stream in Hreach.
    split; [exact Hreach|].
    split.
    + intros native Hpaths Hloop Hcreate.
      rewrite restart_state, stop_state, Hcreate.
      destruct (decide (paths_ s = ∅)); [contradiction|].
      destruct (run_loop_ s); [|contradiction].
      destruct (stream_ s) eqn:Hst; simpl; [tauto|].
      split; [reflexivity|].
      destruct (stream_started_ s); [|reflexivity].
      now destruct Hreach.
    + intros native st Hpaths Hloop Hcreate Hstart.
      rewrite restart_state, stop_state, Hcreate, Hstart.
      destruct (decide (paths_ s = ∅)); [contradiction|].
      destruct (run_loop_ s); [|contradiction].
      destruct (stream_ s) eqn:Hst; simpl; [tauto|].
      split; [reflexivity|].
      destruct (stream_started_ s); [|reflexivity].
      now destruct Hreach.
Qed.

Lemma stream_only_when_started_witness :
  @reachable_starting posix_paths state_running /\
  stream_ state_running <> None /\
  stream_started_ state_running = true /\
  @reachable_starting posix_paths state_creation_failed /\
  stream_ state_creation_failed = None /\
  stream_ (state_of (restart native_start_fails state_running)) = Some 1%nat /\
  stream_started_ (state_of (restart native_start_fails state_running)) = false.
Proof.
  assert (Hrunning : @reachable_starting posix_paths state_running)
    by (do 2 (apply reachable_starting_exec; [reflexivity|]);
        apply reachable_starting_initial).
  assert (Hfailed : @reachable_starting posix_paths state_creation_failed)
    by (do 2 (apply reachable_starting_exec; [reflexivity|]);
        apply reachable_starting_initial).
  assert (Hheld : stream_ state_running <> None)
    by (vm_compute; discriminate).
  destruct (@stream_only_when_started posix_paths state_running)
    as [Hstarting Hreachable].
  destruct (Hreachable state_running_reachable) as (_ & _ & Hstart_fails).
  split; [exact Hrunning|]. split; [exact Hheld|].
  split; [exact (Hstarting Hrunning Hheld)|].
  split; [exact Hfailed|]. split; [vm_compute; reflexivity|].
  apply (Hstart_fails native_start_fails 1%nat);
    [vm_compute; discriminate | vm_compute; discriminate
     | reflexivity | reflexivity].
Defined.

(** C1 as stated fails: after [configure] with one subscription and a [run]
    in which [FSEventStreamCreate] succeeds and [FSEventStreamStart] fails,
    the stream handle is not null and [stream_started_] is false. *)
Lemma stream_without_started :
  @reachable posix_paths state_start_failed /\
  stream_ state_start_failed = Some 1%nat /\
  stream_started_ state_start_failed = false /\
  ~ (stream_ state_start_failed <> None ->
     stream_started_ state_start_failed = true).
Proof.
  assert (Hstream : stream_ state_start_failed = Some 1%nat)
    by (vm_compute; reflexivity).
  assert (Hstarted : stream_started_ state_start_failed = false)
    by (vm_compute; reflexivity).
  split; [exact state_start_failed_reachable|].
  split; [exact Hstream|]. split; [exact Hstarted|].
  rewrite Hstream, Hstarted. intros Hclaim.
  discriminate Hclaim. discriminate.
Qed.

(** C8: [stop] is idempotent.  From any state a publisher can reach, one
    call of [stop] leaves the stream handle null, [stream_started_] false
    and the loop as it was, and a second call right after it changes
    nothing. *)
Theorem stop_idempotent `{PathOps} (s : PublisherState) :
  reachable s ->
  let once := state_of (stop s) in
  let twice := state_of (stop once) in
  twice = once /\
  stream_ once = None /\
  stream_started_ once = false /\
  run_loop_ once = run_loop_ s /\
  paths_ once = paths_ s.
Proof.
  intros Hreach once twice. subst twice once.
  apply reachable_started_has_stream in Hreach.
  unfold started_has_stream in Hreach.
  rewrite !stop_state.
  destruct (stream_ s) eqn:Hst; simpl.
  - repeat split.
  - rewrite Hst. repeat split.
    destruct (stream_started_ s); [|reflexivity].
    now destruct Hreach.
Qed.

Lemma stop_idempotent_witness :
  @reachable posix_paths state_running /\
  stream_ state_running = Some 1%nat /\
  state_of (stop (state_of (stop state_running))) = state_of (stop state_running) /\
  stream_ (state_of (stop state_running)) = None /\
  stream_started_ (state_of (stop state_running)) = false /\
  run_loop_ (state_of (stop state_running)) = Some 2%nat.
Proof.
  destruct (@stop_idempotent posix_paths state_running state_running_reachable)
    as (Htwice & Hstream & Hstarted & Hloop & _).
  split; [exact state_running_reachable|].
  split; [vm_compute; reflexivity|].
  split; [exact Htwice|]. split; [exact Hstream|]. split; [exact Hstarted|].
  rewrite Hloop. vm_compute. reflexivity.
Defined.

(** What [isStreamRunning] answers. *)
Lemma isStreamRunning_result (native : Native) (s : PublisherState) :
  result (isStreamRunning native s) =
  match stream_ s, run_loop_ s with
  | Some _, Some _ => stream_started_ s && CFRunLoopIsWaiting_result native
  | _, _ => false
  end.
Proof.
  unfold isStreamRunning. autorewrite with m_run.
  destruct (stream_ s), (stream_started_ s), (run_loop_ s);
    now autorewrite with m_run.
Qed.

(** C9, as the code has it: [configure] with no subscription empties
    [paths_] and returns; it makes no call at all, so no native stream is
    created and [restart] is not invoked.  Afterwards
    [numSubscriptionedPaths] is zero, and stream, started flag and loop are
    what they were: [isStreamRunning] answers what it would have answered
    before, which is [false] when there was no started stream, as for a
    publisher that has not run yet. *)
Theorem configure_without_subscriptions `{PathOps}
        (fs : FileSystem) (native : Native) (s : PublisherState) :
  let r := configure fs native [] s in
  result r = [] /\
  calls r = [] /\
  state_of r = set_paths ∅ s /\
  result (numSubscriptionedPaths (state_of r)) = 0%nat /\
  (forall native',
     result (isStreamRunning native' (state_of r)) =
     result (isStreamRunning native' s)) /\
  (stream_ s = None \/ stream_started_ s = false ->
   forall native', result (isStreamRunning native' (state_of r)) = false).
Proof.
  intros r.
  assert (Hr : r = ([], set_paths ∅ s, [])).
  { subst r. unfold configure. rewrite !bind_unfold. simpl configure_loop.
    autorewrite with m_run. simpl.
    rewrite decide_True by reflexivity. reflexivity. }
  rewrite Hr. unfold result at 1, calls at 1, state_of. simpl.
  split; [reflexivity|]. split; [reflexivity|]. split; [reflexivity|].
  split; [unfold numSubscriptionedPaths; now autorewrite with m_run|].
  split; [intros native'; now rewrite !isStreamRunning_result|].
  intros Hstopped native'. rewrite isStreamRunning_result. simpl.
  destruct Hstopped as [->| ->]; [reflexivity|].
  now destruct (stream_ s), (run_loop_ s).
Qed.

Lemma configure_without_subscriptions_witness :
  let r := @configure posix_paths (fs_of_links []) native_ok [] initial_state in
  calls r = [] /\
  result (numSubscriptionedPaths (state_of r)) = 0%nat /\
  result (isStreamRunning native_ok (state_of r)) = false.
Proof.
  intros r.
  destruct (@configure_without_subscriptions posix_paths (fs_of_links [])
              native_ok initial_state)
    as (_ & Hcalls & _ & Hsize & _ & Hrunning).
  split; [exact Hcalls|]. split; [exact Hsize|].
  apply Hrunning. left. reflexivity.
Defined.

(** C9 as stated fails: when the publisher is running (one subscription,
    stream started, loop waiting) and [configure] then finds no
    subscription, the stream is left as it is and [isStreamRunning] still
    answers [true]. *)
Lemma configure_without_subscriptions_keeps_stream :
  let r := @configure posix_paths (fs_of_links []) native_ok [] state_running in
  @reachable posix_paths state_running /\
  result (numSubscriptionedPaths (state_of r)) = 0%nat /\
  result (isStreamRunning native_ok (state_of r)) = true.
Proof.
  split; [exact state_running_reachable|].
  split; vm_compute; reflexivity.
Qed.

(** ** Symlink resolution *)

Section Resolution.
Context {path_ops : PathOps}.

(** The original link path after one pass: set from the path if it was
    empty, kept otherwise. *)
Lemma follow_link_link (fs : FileSystem) (sub : FSEventsSubscriptionContext) :
  link_ (follow_link fs sub) =
  if is_empty (link_ sub) then path sub else link_ sub.
Proof. unfold follow_link. now destruct (is_empty (link_ sub)). Qed.

Lemma follow_link_recursive (fs : FileSystem)
      (sub : FSEventsSubscriptionContext) :
  recursive (follow_link fs sub) = recursive sub.
Proof. unfold follow_link. now destruct (is_empty (link_ sub)). Qed.

Lemma follow_link_mask (fs : FileSystem) (sub : FSEventsSubscriptionContext) :
  mask (follow_link fs sub) = mask sub.
Proof. unfold follow_link. now destruct (is_empty (link_ sub)). Qed.

Lemma follow_link_absolute (fs : FileSystem)
      (sub : FSEventsSubscriptionContext) (q : string) :
  absolute_link fs (path sub) q -> path (follow_link fs sub) = q.
Proof.
  intros (_ & Hread & Habs). unfold follow_link.
  destruct (is_empty (link_ sub)); simpl; now rewrite Hread, Habs.
Qed.

(** A relative target is appended to the parent directory of the original
    link path, whichever link it was read from. *)
Lemma follow_link_relative (fs : FileSystem)
      (sub : FSEventsSubscriptionContext) :
  is_absolute (read_symlink fs (path sub)) = false ->
  path (follow_link fs sub) =
  path_append (parent_path (link_ (follow_link fs sub)))
              (read_symlink fs (path sub)).
Proof.
  intros Hrel. unfold follow_link.
  destruct (is_empty (link_ sub)); simpl; now rewrite Hrel.
Qed.

Lemma follow_links_hop (n : nat) (fs : FileSystem)
      (sub : FSEventsSubscriptionContext) (q : string) :
  absolute_link fs (path sub) q ->
  follow_links (S n) fs sub = follow_links n fs (follow_link fs sub).
Proof. intros (Hlink & _). simpl. now rewrite Hlink. Qed.

Lemma is_empty_false (p : string) : p <> "" -> is_empty p = false.
Proof. now destruct p. Qed.

(** C4: resolution in [configure] follows five links and no more.  For a
    subscription as registered (no original link path yet) whose path [A]
    starts the chain A -> B -> C -> D -> E -> F of links with absolute
    targets, [configure] leaves the path of the subscription at [F],
    whatever [F] is or points to, records [A] as the original link path,
    and watches [F]. *)
Theorem configure_follows_five_links
        (fs : FileSystem) (native : Native) (s : PublisherState)
        (subscriptions : list FSEventsSubscriptionContext) (i : nat)
        (sub : FSEventsSubscriptionContext) (A B C D E F : string) :
  subscriptions !! i = Some sub ->
  path sub = A -> link_ sub = "" -> A <> "" ->
  absolute_link fs A B ->
  absolute_link fs B C ->
  absolute_link fs C D ->
  absolute_link fs D E ->
  absolute_link fs E F ->
  let r := configure fs native subscriptions s in
  exists sub',
    result r !! i = Some sub' /\
    path sub' = F /\
    link_ sub' = A /\
    recursive sub' = recursive sub /\ mask sub' = mask sub /\
    F ∈ paths_ (state_of r).
Proof.
  intros Hsub HA Hlink HAne HAB HBC HCD HDE HEF r.
  set (sub1 := follow_link fs sub).
  set (sub2 := follow_link fs sub1).
  set (sub3 := follow_link fs sub2).
  set (sub4 := follow_link fs sub3).
  set (sub5 := follow_link fs sub4).
  assert (Hp1 : path sub1 = B) by (apply follow_link_absolute; now rewrite HA).
  assert (Hl1 : link_ sub1 = A)
    by (subst sub1; now rewrite follow_link_link, Hlink).
  assert (Hp2 : path sub2 = C) by (apply follow_link_absolute; now rewrite Hp1).
  assert (Hl2 : link_ sub2 = A)
    by (subst sub2; now rewrite follow_link_link, Hl1, is_empty_false).
  assert (Hp3 : path sub3 = D) by (apply follow_link_absolute; now rewrite Hp2).
  assert (Hl3 : link_ sub3 = A)
    by (subst sub3; now rewrite follow_link_link, Hl2, is_empty_false).
  assert (Hp4 : path sub4 = E) by (apply follow_link_absolute; now rewrite Hp3).
  assert (Hl4 : link_ sub4 = A)
    by (subst sub4; now rewrite follow_link_link, Hl3, is_empty_false).
  assert (Hp5 : path sub5 = F) by (apply follow_link_absolute; now rewrite Hp4).
  assert (Hl5 : link_ sub5 = A)
    by (subst sub5; now rewrite follow_link_link, Hl4, is_empty_false).
  assert (Hresolve : resolve fs sub = sub5).
  { unfold resolve, FSEVENTS_MAX_SYMLINK_DEPTH.
    rewrite (follow_links_hop 4 fs sub B) by now rewrite HA.
    fold sub1.
    rewrite (follow_links_hop 3 fs sub1 C) by now rewrite Hp1.
    fold sub2.
    rewrite (follow_links_hop 2 fs sub2 D) by now rewrite Hp2.
    fold sub3.
    rewrite (follow_links_hop 1 fs sub3 E) by now rewrite Hp3.
    fold sub4.
    rewrite (follow_links_hop 0 fs sub4 F) by now rewrite Hp4.
    reflexivity. }
  exists sub5. split; [|split; [exact Hp5|split; [exact Hl5|split; [|split]]]].
  - subst r. rewrite configure_result, <- Hresolve.
    now rewrite list_lookup_fmap, Hsub.
  - subst sub5 sub4 sub3 sub2 sub1. now rewrite !follow_link_recursive.
  - subst sub5 sub4 sub3 sub2 sub1. now rewrite !follow_link_mask.
  - assert (HF : F ∈ (list_to_set (map path (map (resolve fs) subscriptions))
                       : gset string)).
    { apply elem_of_list_to_set, list_elem_of_fmap.
      exists sub5. split; [now rewrite Hp5|].
      apply list_elem_of_fmap. exists sub. split; [now rewrite Hresolve|].
      apply list_elem_of_lookup. now exists i. }
    subst r. rewrite configure_state.
    match goal with |- context [decide ?P] => destruct (decide P) end.
    + exact HF.
    + rewrite restart_paths. exact HF.
Qed.
End Resolution.

Lemma configure_follows_five_links_witness :
  let sub := {| path := "/l/a"; link_ := ""; recursive := true; mask := 0 |} in
  let r := @configure posix_paths fs_long_chain native_ok
                      [subscription_tmp; sub] initial_state in
  exists sub',
    result r !! 1%nat = Some sub' /\
    path sub' = "/l/f" /\
    link_ sub' = "/l/a" /\
    is_symlink fs_long_chain (path sub') = true /\
    "/l/f" ∈ paths_ (state_of r).
Proof.
  intros sub r.
  destruct (@configure_follows_five_links posix_paths fs_long_chain native_ok
              initial_state [subscription_tmp; sub] 1%nat sub
              "/l/a" "/l/b" "/l/c" "/l/d" "/l/e" "/l/f")
    as (sub' & Hsub' & Hpath & Hlink & _ & _ & Hwatched);
    [reflexivity | reflexivity | reflexivity | discriminate
     | repeat split | repeat split | repeat split | repeat split
     | repeat split |].
  exists sub'. split; [exact Hsub'|]. split; [exact Hpath|].
  split; [exact Hlink|]. split; [now rewrite Hpath | exact Hwatched].
Defined.

(** C2 on a chain of two links: [/a/l1] holds the absolute target [/b/l2],
    and [/b/l2] holds the relative target [t].  At the second hop the
    current path, [/b/l2], is the path last found to be a link, and its
    directory gives [/b/t]; [configure] appends [t] to the directory of the
    original link path [/a/l1] instead and leaves the subscription at
    [/a/t]. *)
Theorem relative_target_resolved_against_first_link :
  let fs := fs_of_links [("/a/l1", "/b/l2"); ("/b/l2", "t")] in
  let sub := {| path := "/a/l1"; link_ := ""; recursive := false; mask := 0 |} in
  let r := @configure posix_paths fs native_ok [sub] initial_state in
  path (@follow_link posix_paths fs sub) = "/b/l2" /\
  is_symlink fs "/b/l2" = true /\
  read_symlink fs "/b/l2" = "t" /\
  @is_absolute posix_paths "t" = false /\
  @path_append posix_paths (@parent_path posix_paths "/b/l2") "t" = "/b/t" /\
  result r = [ {| path := "/a/t"; link_ := "/a/l1";
                  recursive := false; mask := 0 |} ] /\
  paths_ (state_of r) = {[ "/a/t" ]}.
Proof. vm_compute. repeat split. Qed.

(** * Further properties *)

(** ** The subscription filter, in full *)

(** When [shouldFire] answers [true]: both tests pass. *)
Lemma shouldFire_true_iff `{Libc}
      (sc : FSEventsSubscriptionContext) (ec : FSEventsEventContext) :
  shouldFire sc ec = true <->
  (if recursive sc
   then exists rest, ec_path ec = path sc +:+ rest
   else fnmatch (path sc +:+ "*") (ec_path ec)
                (Z.lor FNM_PATHNAME FNM_CASEFOLD) = 0) /\
  (mask sc = 0 \/ Z.land (fsevent_flags ec) (mask sc) <> 0).
Proof.
  unfold shouldFire.
  destruct (recursive sc).
  - rewrite <- is_prefix_spec, <- string_find_zero.
    destruct (Z.eqb_spec (string_find (ec_path ec) (path sc)) 0) as [Hf|Hf];
      simpl; [|intuition congruence].
    destruct (Z.eqb_spec (mask sc) 0) as [Hm|Hm]; simpl; [tauto|].
    destruct (Z.eqb_spec (Z.land (fsevent_flags ec) (mask sc)) 0);
      intuition congruence.
  - destruct (Z.eqb_spec (fnmatch (path sc +:+ "*") (ec_path ec)
                                  (Z.lor FNM_PATHNAME FNM_CASEFOLD)) 0)
      as [Hf|Hf]; simpl; [|intuition congruence].
    destruct (Z.eqb_spec (mask sc) 0) as [Hm|Hm]; simpl; [tauto|].
    destruct (Z.eqb_spec (Z.land (fsevent_flags ec) (mask sc)) 0);
      intuition congruence.
Qed.

(** X1: [shouldFire] answers [true] exactly when the path test passes (for
    a recursive subscription: the path of the event begins with the path of
    the subscription; otherwise: [fnmatch] matches the path followed by a
    star) and the mask is zero or shares a bit with the flags. *)
Theorem shouldFire_spec `{Libc}
        (sc : FSEventsSubscriptionContext) (ec : FSEventsEventContext) :
  shouldFire sc ec = true <->
  (if recursive sc
   then exists rest, ec_path ec = path sc +:+ rest
   else fnmatch (path sc +:+ "*") (ec_path ec)
                (Z.lor FNM_PATHNAME FNM_CASEFOLD) = 0) /\
  (mask sc = 0 \/ Z.land (fsevent_flags ec) (mask sc) <> 0).
Proof. apply shouldFire_true_iff. Qed.

Lemma append_assoc (a b c : string) : (a +:+ b) +:+ c = a +:+ (b +:+ c).
Proof.
  induction a as [|x a IH]; [reflexivity|].
  change (String x ((a +:+ b) +:+ c) = String x (a +:+ (b +:+ c))).
  now rewrite IH.
Qed.

(** X2: a recursive subscription on a directory sees whatever a recursive
    subscription with the same mask on a path below it sees: if [shouldFire]
    holds for a subscription, it holds for every recursive subscription with
    that mask whose path is a prefix of the first one's path. *)
Theorem shouldFire_recursive_ancestor `{Libc}
        (sc sc' : FSEventsSubscriptionContext) (ec : FSEventsEventContext)
        (below : string) :
  recursive sc = true ->
  recursive sc' = true ->
  mask sc' = mask sc ->
  path sc = path sc' +:+ below ->
  shouldFire sc ec = true ->
  shouldFire sc' ec = true.
Proof.
  intros Hrec Hrec' Hmask Hpath.
  rewrite !shouldFire_true_iff, Hrec, Hrec', Hmask, Hpath.
  intros [[rest Hrest] Hm]. split; [|exact Hm].
  exists (below +:+ rest). now rewrite Hrest, append_assoc.
Qed.

Lemma shouldFire_recursive_ancestor_witness :
  let sc := {| path := "/var/log/sys"; link_ := ""; recursive := true;
               mask := kFSEventStreamEventFlagItemCreated |} in
  let sc' := {| path := "/var"; link_ := ""; recursive := true;
                mask := kFSEventStreamEventFlagItemCreated |} in
  let ec := new_event_context 1%nat kFSEventStreamEventFlagItemCreated 7
                              "/var/log/sys/debug.log" in
  @shouldFire libc_no_match sc' ec = true.
Proof.
  intros sc sc' ec.
  apply (@shouldFire_recursive_ancestor libc_no_match sc sc' ec "/log/sys");
    reflexivity.
Defined.

(** ** The table behind [kMaskActions] *)

Lemma map_insert_In (k : Z) (v : string) (m : list (Z * string))
      (e : Z * string) :
  StronglySorted Z.lt (keys m) ->
  In e (map_insert k v m) <->
  In e m \/ (e = (k, v) /\ ~ In k (keys m)).
Proof.
  induction m as [|[k' v'] m IH]; simpl; intros Hs.
  - intuition.
  - apply StronglySorted_inv in Hs as [Hs Hall].
    rewrite List.Forall_forall in Hall.
    destruct (Z.ltb_spec k k') as [Hlt|Hge]; simpl.
    + split; [|intuition].
      intros [<-|Hin]; [|tauto].
      right. split; [reflexivity|].
      intros [->|Hk]; [lia|]. apply Hall in Hk. lia.
    + destruct (Z.eqb_spec k k') as [->|Hne]; simpl.
      * intuition.
      * rewrite IH by exact Hs. intuition.
Qed.

(** X3: the map built from an initializer list whose keys are pairwise
    distinct holds exactly the entries of the list; none is dropped.  So it
    is for [kMaskActions]. *)
Theorem map_of_initializer_list_entries (l : list (Z * string))
        (e : Z * string) :
  List.NoDup (keys l) ->
  In e (map_of_initializer_list l) <-> In e l.
Proof.
  unfold map_of_initializer_list.
  assert (Hgen : forall m,
    StronglySorted Z.lt (keys m) ->
    List.NoDup (keys l) ->
    (forall k, In k (keys l) -> ~ In k (keys m)) ->
    In e (fold_left (fun m e => map_insert (fst e) (snd e) m) l m) <->
    In e m \/ In e l).
  { induction l as [|[k v] l IH]; intros m Hm Hnd Hdisj; simpl.
    - tauto.
    - apply List.NoDup_cons_iff in Hnd as [Hk Hnd].
      rewrite IH.
      + rewrite map_insert_In by exact Hm.
        assert (Hkm : ~ In k (keys m)) by (apply Hdisj; now left).
        intuition congruence.
      + now apply map_insert_sorted.
      + exact Hnd.
      + intros k' Hk' Hin. apply map_insert_keys in Hin as [->|Hin].
        * contradiction.
        * apply (Hdisj k'); [now right | exact Hin]. }
  intros Hnd. rewrite Hgen; [simpl; tauto | constructor | exact Hnd |].
  intros k _ [].
Qed.

Lemma map_of_initializer_list_entries_witness :
  In (kFSEventStreamEventFlagItemXattrMod, "ATTRIBUTES_MODIFIED") kMaskActions /\
  length kMaskActions = length kMaskActions_init.
Proof.
  split; [|reflexivity].
  apply (map_of_initializer_list_entries kMaskActions_init).
  - unfold kMaskActions_init, keys. simpl.
    repeat (constructor; [simpl; intros Hin;
      repeat (destruct Hin as [Hin|Hin]; [discriminate Hin|]); exact Hin|]).
    constructor.
  - simpl. tauto.
Defined.

(** ** The callback bridge on whole batches *)

(** The effects of one raw event: the log line when the must-scan bit is
    set, then the [fire] calls. *)
Lemma Callback_event_effects (stream : FSEventStreamRef) (p : string)
      (flags id : Z) :
  Callback_event stream p flags id =
  (if has_flag flags kFSEventStreamEventFlagMustScanSubDirs
   then [TLOG ("FSEvents collision, root: " +:+ p)] else []) ++
  map (fun a => fire (set_action a (new_event_context stream flags id p)))
      (match matching flags kMaskActions with
       | [] => ["UNKNOWN"]
       | ms => map snd ms
       end).
Proof.
  unfold Callback_event. rewrite mask_loop_spec. simpl fsevent_flags.
  simpl ec_path.
  destruct (matching flags kMaskActions) as [|e ms]; simpl.
  - now rewrite app_nil_r.
  - now rewrite map_map.
Qed.

Lemma fired_app (a b : list CallbackEffect) :
  fired (a ++ b) = fired a ++ fired b.
Proof. apply omap_app. Qed.

Lemma Callback_from_batch (stream : FSEventStreamRef)
      (evs before : list (string * Z * Z)) :
  Callback_from stream (length before) (length evs)
                (batch_paths (before ++ evs)) (batch_flags (before ++ evs))
                (batch_ids (before ++ evs)) =
  Some (map (fun ev => Callback_event stream ev.1.1 ev.1.2 ev.2) evs).
Proof.
  revert before. induction evs as [|ev evs IH]; intros before; simpl.
  - reflexivity.
  - unfold batch_paths, batch_flags, batch_ids.
    rewrite !list_lookup_fmap, list_lookup_middle by reflexivity. simpl.
    specialize (IH (before ++ [ev])).
    rewrite length_app, Nat.add_1_r, <- app_assoc in IH. simpl in IH.
    unfold batch_paths, batch_flags, batch_ids in IH.
    now rewrite IH.
Qed.

Lemma Callback_deliver (stream : FSEventStreamRef)
      (evs : list (string * Z * Z)) :
  Callback stream (length evs) (batch_paths evs) (batch_flags evs)
           (batch_ids evs) =
  Some (concat (map (fun ev => Callback_event stream ev.1.1 ev.1.2 ev.2) evs)).
Proof.
  unfold Callback.
  pose proof (Callback_from_batch stream evs []) as Hbatch.
  simpl in Hbatch. now rewrite Hbatch.
Qed.

(** X4: [Callback] on a batch does, event after event, what it does for
    each raw event alone; an empty batch has no effect, and a batch
    delivered in two callbacks has the effects of the same batch delivered
    in one. *)
Theorem Callback_batch (stream : FSEventStreamRef)
        (evs evs' : list (string * Z * Z)) :
  let deliver evs :=
    Callback stream (length evs) (batch_paths evs) (batch_flags evs)
             (batch_ids evs) in
  deliver evs =
    Some (concat (map (fun ev => Callback_event stream ev.1.1 ev.1.2 ev.2) evs)) /\
  deliver [] = Some [] /\
  (exists out out',
     deliver evs = Some out /\ deliver evs' = Some out' /\
     deliver (evs ++ evs') = Some (out ++ out')).
Proof.
  intros deliver.
  assert (Hdeliver : forall l, deliver l =
    Some (concat (map (fun ev => Callback_event stream ev.1.1 ev.1.2 ev.2) l))).
  { intros l. apply Callback_deliver. }
  split; [apply Hdeliver|]. split; [reflexivity|].
  eexists _, _. split; [apply Hdeliver|]. split; [apply Hdeliver|].
  now rewrite Hdeliver, map_app, concat_app.
Qed.

Lemma matching_length (flags : Z) (table : list (Z * string)) :
  (length (matching flags table) <= length table)%nat.
Proof. apply List.filter_length_le. Qed.

Lemma fired_Callback_event_length (stream : FSEventStreamRef) (p : string)
      (flags id : Z) :
  (1 <= length (fired (Callback_event stream p flags id)) <= 10)%nat.
Proof.
  rewrite fired_Callback_event, length_map.
  pose proof (matching_length flags kMaskActions) as Hle.
  change (length kMaskActions) with 10%nat in Hle.
  destruct (matching flags kMaskActions) as [|e ms]; simpl in *.
  - lia.
  - rewrite length_map. lia.
Qed.

Lemma fired_concat_length (groups : list (list CallbackEffect)) :
  (forall i group, groups !! i = Some group ->
     (1 <= length (fired group) <= 10)%nat) ->
  (length groups <= length (fired (concat groups)) <= 10 * length groups)%nat.
Proof.
  induction groups as [|group groups IH]; intros Hall; simpl; [lia|].
  rewrite fired_app, length_app.
  pose proof (Hall 0%nat group eq_refl) as Hfirst.
  assert (Hrest : (length groups <= length (fired (concat groups))
                   <= 10 * length groups)%nat)
    by (apply IH; intros i g Hg; apply (Hall (S i) g Hg)).
  lia.
Qed.

(** X5: [Callback] drops no raw event and fires none more than ten times:
    for every index of the batch it makes at least one and at most ten
    [fire] calls, so between [n] and [10 * n] for a batch of [n]. *)
Theorem Callback_fire_count (stream : FSEventStreamRef) (num_events : nat)
        (event_paths : list string) (flags ids : list Z) :
  (num_events <= length event_paths)%nat ->
  (num_events <= length flags)%nat ->
  (num_events <= length ids)%nat ->
  exists groups,
    Callback_from stream 0 num_events event_paths flags ids = Some groups /\
    Callback stream num_events event_paths flags ids = Some (concat groups) /\
    length groups = num_events /\
    (forall i group, groups !! i = Some group ->
       (1 <= length (fired group) <= 10)%nat) /\
    (num_events <= length (fired (concat groups)) <= 10 * num_events)%nat.
Proof.
  intros Hp Hf Hi.
  destruct (Callback_groups stream num_events event_paths flags ids Hp Hf Hi)
    as (groups & Hfrom & Hcallback & Hlen & Hspec).
  exists groups. split; [exact Hfrom|]. split; [exact Hcallback|].
  split; [exact Hlen|].
  assert (Heach : forall i group, groups !! i = Some group ->
                    (1 <= length (fired group) <= 10)%nat).
  { intros i group Hgroup.
    destruct (Hspec i group Hgroup) as (p & f & id & _ & _ & _ & ->).
    apply fired_Callback_event_length. }
  split; [exact Heach|].
  rewrite <- Hlen. now apply fired_concat_length.
Qed.

Lemma Callback_fire_count_witness :
  exists groups,
    Callback 7%nat 2 ["/tmp/a.txt"; "/tmp/b"] [0xDFA1; 0] [41; 42]
    = Some (concat groups) /\
    map (fun group => length (fired group)) groups = [10%nat; 1%nat].
Proof.
  destruct (Callback_fire_count 7%nat 2 ["/tmp/a.txt"; "/tmp/b"]
                                [0xDFA1; 0] [41; 42])
    as (groups & Hfrom & Hcallback & _); [simpl; lia..|].
  exists groups. split; [exact Hcallback|].
  vm_compute in Hfrom. injection Hfrom as <-. reflexivity.
Defined.

Lemma matching_kMaskActions_head (flags : Z) :
  matching flags kMaskActions =
  (if has_flag flags kFSEventStreamEventFlagMustScanSubDirs
   then [(kFSEventStreamEventFlagMustScanSubDirs, "COLLISION_WITHIN")]
   else []) ++ matching flags (tl kMaskActions).
Proof.
  rewrite kMaskActions_entries. unfold matching. cbn [List.filter fst tl].
  now destruct (has_flag flags kFSEventStreamEventFlagMustScanSubDirs).
Qed.

Lemma kMaskActions_labels (e : Z * string) :
  In e kMaskActions -> In (snd e) action_labels /\ snd e <> "UNKNOWN".
Proof.
  rewrite kMaskActions_entries. simpl.
  intros He.
  repeat (destruct He as [<-|He]; [simpl; split; [tauto|discriminate]|]).
  contradiction.
Qed.

Lemma kMaskActions_tail_labels (e : Z * string) :
  In e (tl kMaskActions) -> snd e <> "COLLISION_WITHIN".
Proof.
  rewrite kMaskActions_entries. simpl.
  intros He.
  repeat (destruct He as [<-|He]; [simpl; discriminate|]).
  contradiction.
Qed.

(** The must-scan bit is the lowest key of the table.  When it is set in
    the flags of a raw event, the loop body writes one log line with the
    path and then fires COLLISION_WITHIN before any other action; when it
    is not set, it logs nothing and fires no COLLISION_WITHIN. *)
Lemma Callback_event_collision_effects (stream : FSEventStreamRef) (p : string)
        (flags id : Z) :
  let effects := Callback_event stream p flags id in
  let ec := new_event_context stream flags id p in
  (has_flag flags kFSEventStreamEventFlagMustScanSubDirs = true ->
   exists rest,
     effects = TLOG ("FSEvents collision, root: " +:+ p)
               :: fire (set_action "COLLISION_WITHIN" ec) :: rest /\
     (forall msg, ~ In (TLOG msg) rest) /\
     (forall ec', In ec' (fired rest) -> action ec' <> "COLLISION_WITHIN")) /\
  (has_flag flags kFSEventStreamEventFlagMustScanSubDirs = false ->
   (forall msg, ~ In (TLOG msg) effects) /\
   (forall ec', In ec' (fired effects) -> action ec' <> "COLLISION_WITHIN")).
Proof.
  intros effects ec. subst effects.
  rewrite Callback_event_effects, matching_kMaskActions_head. fold ec.
  assert (Htail : forall a,
            In a (map snd (matching flags (tl kMaskActions))) ->
            a <> "COLLISION_WITHIN").
  { intros a Ha. apply in_map_iff in Ha as (e & <- & He).
    apply filter_In in He as [He _]. now apply kMaskActions_tail_labels. }
  remember (matching flags (tl kMaskActions)) as others eqn:Hothers.
  clear Hothers.
  assert (Hfire : forall (l : list string) x,
            In x (map (fun a => fire (set_action a ec)) l) ->
            exists a, x = fire (set_action a ec) /\ In a l).
  { intros l x Hx. apply in_map_iff in Hx as (a & <- & Ha). eauto. }
  assert (Hfired : forall l : list string,
            fired (map (fun a => fire (set_action a ec)) l) =
            map (fun a => set_action a ec) l).
  { induction l as [|a l IH]; simpl; [reflexivity|]. now f_equal. }
  split; intros Hbit; rewrite Hbit; simpl.
  - eexists. split; [reflexivity|]. split.
    + intros msg Hin. apply Hfire in Hin as (a & Ha & _). discriminate.
    + intros ec' Hin. rewrite Hfired in Hin.
      apply in_map_iff in Hin as (a & <- & Ha). simpl. now apply Htail.
  - split.
    + intros msg Hin. apply Hfire in Hin as (a & Ha & _). discriminate.
    + intros ec' Hin. rewrite Hfired in Hin.
      apply in_map_iff in Hin as (a & <- & Ha). simpl.
      destruct others as [|e ms].
      * simpl in Ha. destruct Ha as [<-|[]]. discriminate.
      * now apply Htail.
Qed.

(** X6: for every raw event of a batch given to [Callback]: when the
    must-scan bit is set in its flags, [Callback] writes one log line with
    its path and then fires COLLISION_WITHIN before any other action for
    that event; when the bit is not set, [Callback] writes no log line for
    the event and fires no COLLISION_WITHIN for it. *)
Theorem Callback_collision (stream : FSEventStreamRef) (num_events : nat)
        (event_paths : list string) (flags ids : list Z) :
  (num_events <= length event_paths)%nat ->
  (num_events <= length flags)%nat ->
  (num_events <= length ids)%nat ->
  exists groups,
    Callback_from stream 0 num_events event_paths flags ids = Some groups /\
    Callback stream num_events event_paths flags ids = Some (concat groups) /\
    length groups = num_events /\
    forall i p f id group,
      event_paths !! i = Some p -> flags !! i = Some f ->
      ids !! i = Some id -> groups !! i = Some group ->
      let ec := new_event_context stream f id p in
      (has_flag f kFSEventStreamEventFlagMustScanSubDirs = true ->
       exists rest,
         group = TLOG ("FSEvents collision, root: " +:+ p)
                 :: fire (set_action "COLLISION_WITHIN" ec) :: rest /\
         (forall msg, ~ In (TLOG msg) rest) /\
         (forall ec', In ec' (fired rest) ->
                      action ec' <> "COLLISION_WITHIN")) /\
      (has_flag f kFSEventStreamEventFlagMustScanSubDirs = false ->
       (forall msg, ~ In (TLOG msg) group) /\
       (forall ec', In ec' (fired group) ->
                    action ec' <> "COLLISION_WITHIN")).
Proof.
  intros Hp Hf Hi.
  destruct (Callback_groups stream num_events event_paths flags ids Hp Hf Hi)
    as (groups & Hfrom & Hcallback & Hlen & Hspec).
  exists groups. split; [exact Hfrom|]. split; [exact Hcallback|].
  split; [exact Hlen|].
  intros i p f id group Hpath Hflags Hid Hgroup.
  destruct (Hspec i group Hgroup) as (p' & f' & id' & Hp' & Hf' & Hi' & ->).
  assert (p' = p) as -> by congruence.
  assert (f' = f) as -> by congruence.
  assert (id' = id) as -> by congruence.
  apply Callback_event_collision_effects.
Qed.

Lemma Callback_collision_witness :
  exists out,
    Callback 7%nat 2 ["/tmp"; "/tmp/b"] [0x101; 0x100] [41; 42] = Some out /\
    out = [ TLOG "FSEvents collision, root: /tmp";
            fire (set_action "COLLISION_WITHIN"
                    (new_event_context 7%nat 0x101 41 "/tmp"));
            fire (set_action "CREATED"
                    (new_event_context 7%nat 0x101 41 "/tmp"));
            fire (set_action "CREATED"
                    (new_event_context 7%nat 0x100 42 "/tmp/b")) ].
Proof.
  destruct (Callback_collision 7%nat 2 ["/tmp"; "/tmp/b"] [0x101; 0x100]
                               [41; 42])
    as (groups & Hfrom & Hcallback & _); [simpl; lia..|].
  exists (concat groups). split; [exact Hcallback|].
  vm_compute in Hfrom. injection Hfrom as <-. reflexivity.
Defined.

(** X7: the action of a fired record is always one of the nine labels, and
    it is UNKNOWN exactly when the flags hold no bit of the table. *)
Theorem Callback_event_actions (stream : FSEventStreamRef) (p : string)
        (flags id : Z) (ec : FSEventsEventContext) :
  In ec (fired (Callback_event stream p flags id)) ->
  In (action ec) action_labels /\
  (action ec = "UNKNOWN" <->
   forall e, In e kMaskActions -> Z.land flags (fst e) = 0).
Proof.
  rewrite fired_Callback_event. intros Hin.
  apply in_map_iff in Hin as (a & <- & Ha). simpl.
  destruct (matching flags kMaskActions) as [|e0 ms] eqn:Hms.
  - simpl in Ha. destruct Ha as [<-|[]]. split; [simpl; tauto|].
    split; [intros _|reflexivity].
    intros e He.
    destruct (Z.eqb_spec (Z.land flags (fst e)) 0) as [Hz|Hnz]; [exact Hz|].
    assert (Hin : In e (matching flags kMaskActions)).
    { apply filter_In. split; [exact He|]. unfold has_flag.
      now destruct (Z.eqb_spec (Z.land flags (fst e)) 0). }
    rewrite Hms in Hin. contradiction.
  - apply in_map_iff in Ha as (e & <- & He).
    assert (Hin : In e (matching flags kMaskActions)) by now rewrite Hms.
    apply filter_In in Hin as [Htable Hflag].
    destruct (kMaskActions_labels e Htable) as [Hlabel Hknown].
    split; [exact Hlabel|].
    split; [contradiction|].
    intros Hnone. unfold has_flag in Hflag.
    now rewrite (Hnone e Htable) in Hflag.
Qed.

Lemma Callback_event_actions_witness :
  let ec := set_action "UPDATED"
              (new_event_context 1%nat kFSEventStreamEventFlagItemModified 9
                                 "/tmp/a.txt") in
  In ec (fired (Callback_event 1%nat "/tmp/a.txt"
                               kFSEventStreamEventFlagItemModified 9)) /\
  In (action ec) action_labels.
Proof.
  intros ec.
  assert (Hin : In ec (fired (Callback_event 1%nat "/tmp/a.txt"
                                kFSEventStreamEventFlagItemModified 9)))
    by (vm_compute; tauto).
  split; [exact Hin|].
  exact (proj1 (Callback_event_actions _ _ _ _ _ Hin)).
Defined.

(** ** The calls of the lifecycle *)

Lemma stop_calls (s : PublisherState) :
  calls (stop s) =
  call_stop ::
  match stream_ s with
  | Some st => [ FSEventStreamStop st;
                 FSEventStreamUnscheduleFromRunLoop st (run_loop_ s);
                 FSEventStreamInvalidate st;
                 FSEventStreamRelease st ]
  | None => []
  end ++
  match run_loop_ s with
  | Some l => [CFRunLoopStop l]
  | None => []
  end.
Proof. destruct s as [ps [st|] b [l|]]; reflexivity. Qed.

Lemma restart_calls (native : Native) (s : PublisherState) :
  calls (restart native s) =
  call_restart ::
  if decide (paths_ s = ∅) then []
  else match run_loop_ s with
       | None => []
       | Some l =>
           map CFStringCreateWithCString (std_set_order (paths_ s)) ++
           CFArrayCreate (length (std_set_order (paths_ s))) ::
           calls (stop s) ++
           FSEventStreamCreate (std_set_order (paths_ s)) ::
           match FSEventStreamCreate_result native with
           | Some st =>
               FSEventStreamScheduleWithRunLoop st l ::
               FSEventStreamStart st ::
               if FSEventStreamStart_result native then []
               else [LOG_ERROR "Cannot start FSEvent stream: FSEventStreamStart failed"]
           | None =>
               [LOG_ERROR "Cannot create FSEvent stream: FSEventStreamCreate failed"]
           end ++
           CFRelease_watch_list :: map CFRelease_path (std_set_order (paths_ s))
       end.
Proof.
  unfold restart. autorewrite with m_run.
  destruct (decide (paths_ s = ∅)); [reflexivity|].
  destruct (run_loop_ s) eqn:Hl; [|reflexivity].
  autorewrite with m_run.
  destruct (FSEventStreamCreate_result native);
    [destruct (FSEventStreamStart_result native)|];
    autorewrite with m_run; simpl;
    rewrite <- ?app_assoc; simpl; rewrite <- ?app_assoc; reflexivity.
Qed.

Lemma tearDown_calls (s : PublisherState) :
  calls (tearDown s) = calls (stop s).
Proof. unfold tearDown. autorewrite with m_run. apply app_nil_r. Qed.

Lemma run_calls (native : Native) (s : PublisherState) :
  calls (run native s) =
  match run_loop_ s with
  | None =>
      CFRunLoopGetCurrent ::
      calls (restart native
               (set_run_loop (Some (CFRunLoopGetCurrent_result native)) s)) ++
      [CFRunLoopRun]
  | Some _ => [CFRunLoopRun]
  end.
Proof.
  unfold run. autorewrite with m_run.
  destruct (run_loop_ s); autorewrite with m_run; simpl;
    now rewrite ?app_nil_r.
Qed.

Lemma flush_calls (async : bool) (s : PublisherState) :
  calls (flush async s) =
  match stream_ s with
  | Some st =>
      if stream_started_ s
      then [if async then FSEventStreamFlushAsync st
            else FSEventStreamFlushSync st]
      else []
  | None => []
  end.
Proof.
  unfold flush. autorewrite with m_run.
  destruct (stream_ s); [|reflexivity].
  destruct (stream_started_ s); [|reflexivity].
  now destruct async.
Qed.

Lemma configure_calls `{PathOps} (fs : FileSystem) (native : Native)
      (subscriptions : list FSEventsSubscriptionContext) (s : PublisherState) :
  let s1 := set_paths
              (list_to_set (map path (map (resolve fs) subscriptions))) s in
  calls (configure fs native subscriptions s) =
  if decide (paths_ s1 = ∅) then [] else calls (restart native s1).
Proof.
  intros s1.
  assert (Hloop : configure_loop fs subscriptions (set_paths ∅ s) =
                  (map (resolve fs) subscriptions, s1, [])).
  { rewrite configure_loop_spec. f_equal. f_equal.
    subst s1. unfold set_paths. simpl. f_equal.
    now rewrite (right_id_L ∅ (∪)). }
  unfold configure. autorewrite with m_run. rewrite Hloop.
  change (state_of (map (resolve fs) subscriptions, s1, [])) with s1.
  change (calls (map (resolve fs) subscriptions, s1, [])) with (@nil Call).
  destruct (decide (paths_ s1 = ∅)); autorewrite with m_run; simpl;
    now rewrite ?app_nil_r.
Qed.

(** X8: [flush] never changes the publisher.  It makes one native call, the
    asynchronous or the synchronous flush of the held stream as asked,
    when a stream is held and started; in every other state, and so after
    any [stop], it makes no call. *)
Theorem flush_effect (async : bool) (s : PublisherState) :
  state_of (flush async s) = s /\
  (calls (flush async s) = [] <->
   stream_ s = None \/ stream_started_ s = false) /\
  (forall st, stream_ s = Some st -> stream_started_ s = true ->
     calls (flush async s) =
     [if async then FSEventStreamFlushAsync st else FSEventStreamFlushSync st]) /\
  calls (flush async (state_of (stop s))) = [].
Proof.
  split; [apply flush_state|].
  rewrite !flush_calls, stop_state.
  split; [|split].
  - destruct (stream_ s), (stream_started_ s), async; simpl;
      (split; [intros Hc; try discriminate Hc; tauto
              | intros [Hc|Hc]; try discriminate Hc; reflexivity]).
  - intros st -> ->. reflexivity.
  - destruct (stream_ s) eqn:Hst; simpl; now rewrite ?Hst.
Qed.

(** X9: without watched paths, or without a loop, [restart] does nothing:
    the publisher is unchanged and no native call is made. *)
Theorem restart_without_paths_or_loop (native : Native) (s : PublisherState) :
  paths_ s = ∅ \/ run_loop_ s = None ->
  state_of (restart native s) = s /\
  calls (restart native s) = [call_restart].
Proof.
  intros Hnone. rewrite restart_state, restart_calls.
  destruct (decide (paths_ s = ∅)) as [|Hpaths]; [tauto|].
  destruct Hnone as [Hp|Hl]; [contradiction|]. now rewrite Hl.
Qed.

Lemma restart_without_paths_or_loop_witness :
  state_of (restart native_ok state_configured) = state_configured /\
  paths_ state_configured <> ∅.
Proof.
  split.
  - apply (restart_without_paths_or_loop native_ok state_configured).
    right. vm_compute. reflexivity.
  - vm_compute. discriminate.
Defined.

Lemma created_strings_app (a b : list Call) :
  created_strings (a ++ b) = created_strings a ++ created_strings b.
Proof. apply omap_app. Qed.

Lemma released_strings_app (a b : list Call) :
  released_strings (a ++ b) = released_strings a ++ released_strings b.
Proof. apply omap_app. Qed.

Lemma count_calls_app (P : Call -> bool) (a b : list Call) :
  count_calls P (a ++ b) = (count_calls P a + count_calls P b)%nat.
Proof. unfold count_calls. now rewrite List.filter_app, length_app. Qed.

Lemma count_calls_map_false {A} (P : Call -> bool) (c : A -> Call)
      (l : list A) :
  (forall x, P (c x) = false) -> count_calls P (map c l) = 0%nat.
Proof.
  intros Hc. unfold count_calls.
  induction l as [|x l IH]; simpl; [reflexivity|]. now rewrite Hc.
Qed.

Lemma strings_of_transients (els : list string) :
  created_strings (map CFStringCreateWithCString els) = els /\
  released_strings (map CFRelease_path els) = els /\
  released_strings (map CFStringCreateWithCString els) = [] /\
  created_strings (map CFRelease_path els) = [].
Proof.
  induction els as [|p els (IH1 & IH2 & IH3 & IH4)]; [now repeat split|].
  split; [|split; [|split]].
  - change (p :: created_strings (map CFStringCreateWithCString els)
            = p :: els). now rewrite IH1.
  - change (p :: released_strings (map CFRelease_path els) = p :: els).
    now rewrite IH2.
  - exact IH3.
  - exact IH4.
Qed.

(** The calls of a [restart] that goes ahead, around the calls [ts] of its
    [stop] and the calls [mid] that follow the creation of the stream. *)
Lemma transients_balanced (els : list string) (n : nat) (ts mid : list Call) :
  created_strings ts = [] -> released_strings ts = [] ->
  count_calls is_array_create ts = 0%nat ->
  count_calls is_array_release ts = 0%nat ->
  created_strings mid = [] -> released_strings mid = [] ->
  count_calls is_array_create mid = 0%nat ->
  count_calls is_array_release mid = 0%nat ->
  let t := call_restart ::
           map CFStringCreateWithCString els ++
           CFArrayCreate n :: ts ++
           FSEventStreamCreate els :: mid ++
           CFRelease_watch_list :: map CFRelease_path els in
  created_strings t = els /\ released_strings t = els /\
  count_calls is_array_create t = 1%nat /\
  count_calls is_array_release t = 1%nat.
Proof.
  intros Hc1 Hr1 Ha1 Hb1 Hc2 Hr2 Ha2 Hb2 t. subst t.
  destruct (strings_of_transients els) as (Hcreated & Hreleased & Hcr & Hrc).
  change (?a :: map CFStringCreateWithCString els ++ ?b :: ts ++ ?c :: mid ++ ?d :: ?r)
    with ([a] ++ map CFStringCreateWithCString els ++ [b] ++ ts ++ [c] ++ mid ++ [d] ++ r).
  rewrite !created_strings_app, !released_strings_app, !count_calls_app.
  rewrite Hc1, Hr1, Ha1, Hb1, Hc2, Hr2, Ha2, Hb2, Hcreated, Hreleased, Hcr, Hrc.
  rewrite !count_calls_map_false by reflexivity.
  simpl. rewrite !app_nil_r. repeat split.
Qed.

Lemma stop_calls_no_transients (s : PublisherState) :
  created_strings (calls (stop s)) = [] /\
  released_strings (calls (stop s)) = [] /\
  count_calls is_array_create (calls (stop s)) = 0%nat /\
  count_calls is_array_release (calls (stop s)) = 0%nat.
Proof. rewrite stop_calls. now destruct (stream_ s), (run_loop_ s). Qed.

(** *** The order in which [paths_] is walked *)

Lemma ascii_compare_lt (a b : ascii) :
  Ascii.compare a b = Lt <-> (N_of_ascii a < N_of_ascii b)%N.
Proof. unfold Ascii.compare. apply N.compare_lt_iff. Qed.

Lemma string_compare_lt_trans (a b c : string) :
  String.compare a b = Lt -> String.compare b c = Lt ->
  String.compare a c = Lt.
Proof.
  revert b c. induction a as [|x a IH]; intros [|y b] [|z c]; simpl;
    try discriminate; try reflexivity.
  destruct (Ascii.compare x y) eqn:Hxy; try discriminate;
    destruct (Ascii.compare y z) eqn:Hyz; try discriminate; intros Hab Hbc.
  - apply Ascii.compare_eq_iff in Hxy, Hyz. subst.
    assert (Hzz : Ascii.compare z z = Eq)
      by (unfold Ascii.compare; apply N.compare_refl).
    rewrite Hzz. now apply (IH b c).
  - apply Ascii.compare_eq_iff in Hxy. subst. now rewrite Hyz.
  - apply Ascii.compare_eq_iff in Hyz. subst. now rewrite Hxy.
  - apply ascii_compare_lt in Hxy. apply ascii_compare_lt in Hyz.
    assert (Hxz : Ascii.compare x z = Lt)
      by (apply ascii_compare_lt; now apply (N.lt_trans _ (N_of_ascii y))).
    now rewrite Hxz.
Qed.

Lemma string_lt_trans (a b c : string) :
  string_lt a b -> string_lt b c -> string_lt a c.
Proof.
  unfold string_lt, String.ltb.
  destruct (String.compare a b) eqn:Hab; try discriminate.
  destruct (String.compare b c) eqn:Hbc; try discriminate.
  intros _ _. now rewrite (string_compare_lt_trans a b c Hab Hbc).
Qed.

Lemma string_leb_lt (p q : string) :
  String.leb p q = true -> p <> q -> string_lt p q.
Proof.
  unfold string_lt, String.leb, String.ltb.
  destruct (String.compare p q) eqn:Hpq; try discriminate; [|reflexivity].
  apply String.compare_eq_iff in Hpq. contradiction.
Qed.

Lemma string_not_leb_lt (p q : string) :
  String.leb p q = false -> string_lt q p.
Proof.
  unfold string_lt, String.leb, String.ltb.
  rewrite (String.compare_antisym q p).
  now destruct (String.compare p q).
Qed.

Lemma set_insert_sorted_In (p x : string) (l : list string) :
  In x (set_insert_sorted p l) <-> x = p \/ In x l.
Proof.
  induction l as [|q l IH]; simpl; [intuition congruence|].
  destruct (String.leb p q); simpl; [intuition congruence|].
  rewrite IH. tauto.
Qed.

Lemma set_insert_sorted_sorted (p : string) (l : list string) :
  ~ In p l ->
  StronglySorted string_lt l ->
  StronglySorted string_lt (set_insert_sorted p l).
Proof.
  induction l as [|q l IH]; simpl; intros Hnew Hsorted.
  - repeat constructor.
  - apply StronglySorted_inv in Hsorted as [Hsorted Hall].
    simpl in Hnew.
    destruct (String.leb p q) eqn:Hpq.
    + assert (Hlt : string_lt p q)
        by (apply string_leb_lt; [exact Hpq | intros ->; tauto]).
      constructor; [now constructor|].
      constructor; [exact Hlt|].
      eapply List.Forall_impl; [|exact Hall].
      intros x Hx. now apply (string_lt_trans p q x).
    + constructor; [apply IH; tauto|].
      apply List.Forall_forall. intros x Hx.
      apply set_insert_sorted_In in Hx as [->|Hx].
      * now apply string_not_leb_lt.
      * rewrite List.Forall_forall in Hall. now apply Hall.
Qed.

(** The paths of [paths_] as the code walks them: strictly ascending, and
    each path of the set once. *)
Lemma std_set_order_spec (ps : gset string) :
  StronglySorted string_lt (std_set_order ps) /\
  forall p, In p (std_set_order ps) <-> p ∈ ps.
Proof.
  unfold std_set_order.
  assert (Hgen : forall l : list string, List.NoDup l ->
            StronglySorted string_lt (foldr set_insert_sorted [] l) /\
            forall p, In p (foldr set_insert_sorted [] l) <-> In p l).
  { induction l as [|q l IH]; intros Hnd; simpl.
    - split; [constructor|tauto].
    - apply List.NoDup_cons_iff in Hnd as [Hq Hnd].
      destruct (IH Hnd) as [Hsorted Hin].
      split.
      + apply set_insert_sorted_sorted; [now rewrite Hin|exact Hsorted].
      + intros p. rewrite set_insert_sorted_In, Hin. intuition congruence. }
  destruct (Hgen (elements ps)) as [Hsorted Hin].
  - apply NoDup_ListNoDup, NoDup_elements.
  - split; [exact Hsorted|].
    intros p. now rewrite Hin, <- list_elem_of_In, elem_of_elements.
Qed.

Lemma std_set_order_example :
  std_set_order {[ "/etc"; "/var/log"; "/bin" ]} = ["/bin"; "/etc"; "/var/log"].
Proof. vm_compute. reflexivity. Qed.

(** X10: whatever the native side answers, [restart] releases what it
    created for the call: the array, and a string for every watched path,
    created and released in the same order, the ascending order in which
    the set of paths is walked.  That holds when the stream cannot be
    created or started, too. *)
Theorem restart_releases_what_it_creates (native : Native)
        (s : PublisherState) :
  let t := calls (restart native s) in
  created_strings t = released_strings t /\
  count_calls is_array_create t = count_calls is_array_release t /\
  StronglySorted string_lt (created_strings t) /\
  (forall p, In p (created_strings t) -> p ∈ paths_ s) /\
  (paths_ s <> ∅ -> run_loop_ s <> None ->
   (forall p, p ∈ paths_ s -> In p (created_strings t)) /\
   count_calls is_array_create t = 1%nat).
Proof.
  intros t. subst t. rewrite restart_calls.
  destruct (decide (paths_ s = ∅)) as [|Hpaths];
    [split; [reflexivity|split; [reflexivity|split; [constructor|
      split; [intros p []|intros; contradiction]]]]|].
  destruct (run_loop_ s) as [l|];
    [|split; [reflexivity|split; [reflexivity|split; [constructor|
      split; [intros p []|intros; contradiction]]]]].
  destruct (stop_calls_no_transients s) as (Hc & Hr & Ha & Hb).
  destruct (transients_balanced (std_set_order (paths_ s))
              (length (std_set_order (paths_ s))) (calls (stop s))
              (match FSEventStreamCreate_result native with
               | Some st =>
                   FSEventStreamScheduleWithRunLoop st l ::
                   FSEventStreamStart st ::
                   (if FSEventStreamStart_result native then []
                    else [LOG_ERROR "Cannot start FSEvent stream: FSEventStreamStart failed"])
               | None =>
                   [LOG_ERROR "Cannot create FSEvent stream: FSEventStreamCreate failed"]
               end) Hc Hr Ha Hb)
    as (Hcreated & Hreleased & Harray & Hrelease);
    try (destruct (FSEventStreamCreate_result native);
         [destruct (FSEventStreamStart_result native)|]; reflexivity).
  rewrite Hcreated, Hreleased, Harray, Hrelease.
  destruct (std_set_order_spec (paths_ s)) as [Hsorted Hin].
  split; [reflexivity|]. split; [reflexivity|]. split; [exact Hsorted|].
  split; [intros p; apply Hin|].
  intros _ _. split; [intros p; apply Hin|reflexivity].
Qed.

Lemma restart_run_loop (native : Native) (s : PublisherState) :
  run_loop_ (state_of (restart native s)) = run_loop_ s.
Proof.
  rewrite restart_state, stop_state.
  destruct (decide (paths_ s = ∅)); [reflexivity|].
  destruct (run_loop_ s) eqn:Hl; [|exact Hl].
  destruct (FSEventStreamCreate_result native);
    [destruct (FSEventStreamStart_result native)|];
    now destruct (stream_ s).
Qed.

(** X11: a [restart] that goes ahead replaces the stream.  In a state the
    publisher can reach, with paths to watch and a loop, [restart] first
    releases the stream it holds, if any, and only then asks for a new one
    over the watched paths, each once and in ascending order; afterwards
    the handle is what the creation
    answered, and the publisher is started exactly when both the creation
    and the start succeeded. *)
Theorem restart_replaces_stream `{PathOps} (native : Native)
        (s : PublisherState) (l : CFRunLoopRef) :
  reachable s ->
  paths_ s <> ∅ ->
  run_loop_ s = Some l ->
  let r := restart native s in
  stream_ (state_of r) = FSEventStreamCreate_result native /\
  stream_started_ (state_of r) =
    match FSEventStreamCreate_result native with
    | Some _ => FSEventStreamStart_result native
    | None => false
    end /\
  run_loop_ (state_of r) = Some l /\
  paths_ (state_of r) = paths_ s /\
  exists watch_list before after,
    calls r = before ++ FSEventStreamCreate watch_list :: after /\
    StronglySorted string_lt watch_list /\
    (forall p, In p watch_list <-> p ∈ paths_ s) /\
    (forall old, stream_ s = Some old -> In (FSEventStreamRelease old) before) /\
    count_calls is_release after = 0%nat.
Proof.
  intros Hreach Hpaths Hloop r. subst r.
  apply reachable_started_has_stream in Hreach.
  unfold started_has_stream in Hreach.
  rewrite restart_run_loop, restart_paths, restart_calls, restart_state.
  rewrite stop_state, stop_calls, Hloop.
  destruct (decide (paths_ s = ∅)); [contradiction|].
  split; [|split; [|split; [reflexivity|split; [reflexivity|]]]].
  - destruct (FSEventStreamCreate_result native);
      [destruct (FSEventStreamStart_result native)|];
      now destruct (stream_ s).
  - destruct (FSEventStreamCreate_result native);
      [destruct (FSEventStreamStart_result native)|];
      destruct (stream_ s) eqn:Hst; simpl; try reflexivity;
      destruct (stream_started_ s); try reflexivity; now destruct Hreach.
  - exists (std_set_order (paths_ s)).
    exists (call_restart ::
            map CFStringCreateWithCString (std_set_order (paths_ s)) ++
            CFArrayCreate (length (std_set_order (paths_ s))) :: call_stop ::
            match stream_ s with
            | Some st => [ FSEventStreamStop st;
                           FSEventStreamUnscheduleFromRunLoop st (Some l);
                           FSEventStreamInvalidate st;
                           FSEventStreamRelease st ]
            | None => []
            end ++ [CFRunLoopStop l]).
    destruct (std_set_order_spec (paths_ s)) as [Hsorted Hin].
    eexists. split; [|split; [exact Hsorted|split; [exact Hin|split]]].
    + cbn [app]. rewrite <- !app_assoc. cbn [app].
      rewrite <- !app_assoc. reflexivity.
    + intros old ->. right. apply in_or_app. right. simpl. tauto.
    + rewrite count_calls_app.
      change (count_calls is_release
                (CFRelease_watch_list :: map CFRelease_path (std_set_order (paths_ s))))
        with (count_calls is_release (map CFRelease_path (std_set_order (paths_ s)))).
      rewrite count_calls_map_false by reflexivity.
      now destruct (FSEventStreamCreate_result native);
        [destruct (FSEventStreamStart_result native)|].
Qed.

Lemma restart_replaces_stream_witness :
  let r := restart native_start_fails state_running in
  stream_ state_running = Some 1%nat /\
  stream_ (state_of r) = Some 1%nat /\
  stream_started_ (state_of r) = false /\
  In (FSEventStreamRelease 1%nat) (calls r).
Proof.
  intros r.
  destruct (@restart_replaces_stream posix_paths native_start_fails
              state_running 2%nat state_running_reachable)
    as (Hstream & Hstarted & _ & _ & watch_list & before & after & Hcalls
        & _ & _ & Hreleased & _);
    [vm_compute; discriminate | vm_compute; reflexivity |].
  assert (Hheld : stream_ state_running = Some 1%nat)
    by (vm_compute; reflexivity).
  split; [exact Hheld|]. split; [exact Hstream|]. split; [exact Hstarted|].
  subst r. rewrite Hcalls. apply in_or_app. left. now apply Hreleased.
Defined.

Lemma stream_step_other (phase : StreamPhase) (c : Call) :
  is_stream_use c = false -> stream_step phase c = Some phase.
Proof. destruct c; try discriminate; reflexivity. Qed.

Lemma stream_protocol_app (phase : StreamPhase) (a b : list Call) :
  stream_protocol phase (a ++ b) =
  match stream_protocol phase a with
  | Some phase' => stream_protocol phase' b
  | None => None
  end.
Proof.
  revert phase. induction a as [|c a IH]; intros phase; simpl; [reflexivity|].
  destruct (stream_step phase c); [apply IH|reflexivity].
Qed.

Lemma stream_protocol_app_some (phase phase' : StreamPhase)
      (a b : list Call) :
  stream_protocol phase a = Some phase' ->
  stream_protocol phase (a ++ b) = stream_protocol phase' b.
Proof. intros Ha. now rewrite stream_protocol_app, Ha. Qed.

Lemma stream_protocol_cons_other (phase : StreamPhase) (c : Call)
      (t : list Call) :
  is_stream_use c = false ->
  stream_protocol phase (c :: t) = stream_protocol phase t.
Proof. intros Hc. simpl. now rewrite stream_step_other. Qed.

Lemma stream_protocol_others {A} (phase : StreamPhase) (c : A -> Call)
      (l : list A) :
  (forall x, is_stream_use (c x) = false) ->
  stream_protocol phase (map c l) = Some phase.
Proof.
  intros Hc. induction l as [|x l IH]; simpl; [reflexivity|].
  now rewrite stream_step_other.
Qed.

Lemma stop_protocol (s : PublisherState) :
  stream_protocol (phase_of s) (calls (stop s)) = Some no_stream /\
  phase_of (state_of (stop s)) = no_stream.
Proof.
  unfold phase_of. rewrite stop_calls, stop_state.
  destruct (stream_ s) as [st|] eqn:Hst, (run_loop_ s); simpl;
    rewrite ?Nat.eqb_refl, ?Hst; simpl; rewrite ?Nat.eqb_refl; now split.
Qed.

Lemma restart_protocol (native : Native) (s : PublisherState) :
  stream_protocol (phase_of s) (calls (restart native s)) =
  Some (phase_of (state_of (restart native s))).
Proof.
  rewrite restart_calls, restart_state.
  destruct (decide (paths_ s = ∅)); [reflexivity|].
  destruct (run_loop_ s) as [l|] eqn:Hl; [|reflexivity].
  destruct (stop_protocol s) as [Hstop Hstopped].
  set (els := std_set_order (paths_ s)).
  rewrite stream_protocol_cons_other by reflexivity.
  rewrite (stream_protocol_app_some _ (phase_of s))
    by (apply stream_protocol_others; reflexivity).
  rewrite stream_protocol_cons_other by reflexivity.
  rewrite (stream_protocol_app_some _ no_stream) by exact Hstop.
  rewrite stream_protocol_cons_other by reflexivity.
  destruct (FSEventStreamCreate_result native) as [st|];
    [destruct (FSEventStreamStart_result native)|];
    simpl; rewrite ?Nat.eqb_refl; simpl;
    now rewrite stream_protocol_others by reflexivity.
Qed.

Lemma op_protocol `{PathOps} (native : Native) (op : Op) (s : PublisherState) :
  stream_protocol (phase_of s) (op_calls native op s) =
  Some (phase_of (exec native op s)).
Proof.
  destruct op as [fs subs| | | | | |async]; cbn [op_calls exec].
  - rewrite configure_calls, configure_state.
    match goal with |- context [decide ?P] => destruct (decide P) end;
      [reflexivity|].
    apply (restart_protocol native (set_paths _ s)).
  - apply restart_protocol.
  - rewrite run_calls, run_state.
    destruct (run_loop_ s); [reflexivity|].
    rewrite stream_protocol_cons_other by reflexivity.
    rewrite (stream_protocol_app_some _
               (phase_of (state_of (restart native
                  (set_run_loop (Some (CFRunLoopGetCurrent_result native)) s)))))
      by (apply (restart_protocol native
                   (set_run_loop (Some (CFRunLoopGetCurrent_result native)) s))).
    reflexivity.
  - destruct (stop_protocol s) as [-> ->]. reflexivity.
  - unfold end_. destruct (stop_protocol s) as [-> ->]. reflexivity.
  - rewrite tearDown_calls, tearDown_state.
    destruct (stop_protocol s) as [-> Hafter].
    unfold phase_of in *. simpl. now rewrite Hafter.
  - rewrite flush_calls, flush_state. unfold phase_of.
    destruct (stream_ s) as [st|]; [|reflexivity].
    destruct (stream_started_ s); [|reflexivity].
    destruct async; simpl; now rewrite Nat.eqb_refl.
Qed.

(** X12: over any run of member calls, from any state and whatever the
    native side answers, the calls on streams follow the life of one stream
    at a time, handle by handle: a stream is scheduled only while none is
    held; it is started, stopped or flushed only while it is the one held;
    that same stream is then unscheduled, invalidated and released, each
    once and in this order, before another is scheduled; and at the end
    the publisher holds the stream last scheduled and not released, or
    none.  No call is made on a stream that was released, none is released
    twice, and none is dropped unreleased. *)
Theorem stream_calls_follow_protocol `{PathOps} (ops : list (Native * Op))
        (s : PublisherState) :
  stream_protocol (phase_of s) (run_ops ops s).2 =
  Some (phase_of (run_ops ops s).1).
Proof.
  revert s. induction ops as [|[native op] ops IH]; intros s; simpl.
  - reflexivity.
  - specialize (IH (exec native op s)).
    destruct (run_ops ops (exec native op s)) as [s' t]. simpl in *.
    now rewrite stream_protocol_app, op_protocol.
Qed.

(** The protocol is not met by a stream released twice, nor by one
    released while another is held. *)
Lemma stream_protocol_rejects :
  stream_protocol (scheduled 1%nat)
    [ FSEventStreamUnscheduleFromRunLoop 1%nat None;
      FSEventStreamInvalidate 1%nat; FSEventStreamRelease 1%nat;
      FSEventStreamRelease 1%nat ] = None /\
  stream_protocol (scheduled 1%nat)
    [ FSEventStreamUnscheduleFromRunLoop 2%nat None ] = None /\
  stream_protocol (scheduled 1%nat)
    [ FSEventStreamScheduleWithRunLoop 2%nat 3%nat ] = None.
Proof. repeat split. Qed.

Lemma stop_fields (s : PublisherState) :
  stream_ (state_of (stop s)) = None /\
  run_loop_ (state_of (stop s)) = run_loop_ s /\
  paths_ (state_of (stop s)) = paths_ s.
Proof.
  rewrite stop_state.
  destruct (stream_ s) eqn:Hst; simpl; now rewrite ?Hst.
Qed.

(** X13: [tearDown] detaches the publisher for good: it holds no stream
    and no loop afterwards, a [restart] then changes nothing and makes no
    native call, [configure] rebuilds the paths without creating a stream,
    and [isStreamRunning] answers [false]; only [run] binds a loop again. *)
Theorem tearDown_detaches `{PathOps} (s : PublisherState) :
  let s' := state_of (tearDown s) in
  stream_ s' = None /\
  run_loop_ s' = None /\
  paths_ s' = paths_ s /\
  (forall native,
     state_of (restart native s') = s' /\
     calls (restart native s') = [call_restart] /\
     result (isStreamRunning native s') = false) /\
  (forall fs native subscriptions,
     let s'' := state_of (configure fs native subscriptions s') in
     stream_ s'' = None /\ run_loop_ s'' = None /\
     count_calls is_schedule (calls (configure fs native subscriptions s'))
     = 0%nat) /\
  (forall native,
     run_loop_ (state_of (run native s')) =
     Some (CFRunLoopGetCurrent_result native)).
Proof.
  intros s'.
  assert (Hstream : stream_ s' = None)
    by (subst s'; rewrite tearDown_state; apply (stop_fields s)).
  assert (Hloop : run_loop_ s' = None)
    by (subst s'; now rewrite tearDown_state).
  assert (Hrestart : forall native s0, run_loop_ s0 = None ->
            state_of (restart native s0) = s0 /\
            calls (restart native s0) = [call_restart]).
  { intros native s0 Hl. rewrite restart_state, restart_calls, Hl.
    now destruct (decide (paths_ s0 = ∅)). }
  split; [exact Hstream|]. split; [exact Hloop|]. split; [|split; [|split]].
  - subst s'. rewrite tearDown_state. apply (stop_fields s).
  - intros native. destruct (Hrestart native s' Hloop) as [-> ->].
    repeat split. now rewrite isStreamRunning_result, Hstream.
  - intros fs native subscriptions s''. subst s''.
    rewrite configure_state, configure_calls.
    match goal with |- context [decide ?P] => destruct (decide P) end.
    + now repeat split.
    + destruct (Hrestart native
                  (set_paths (list_to_set (map path (map (resolve fs)
                     subscriptions))) s') Hloop) as [-> ->].
      now repeat split.
  - intros native. rewrite run_state, Hloop, restart_run_loop. reflexivity.
Qed.

(** X14: [run] binds the loop once.  It answers the status (0, OK) and its
    last call is [CFRunLoopRun]; afterwards a loop is bound: the one that
    was bound before, with the publisher unchanged and no other call made,
    or else the loop of the calling thread. *)
Theorem run_binds_loop_once (native : Native) (s : PublisherState) :
  result (run native s) = {| code := 0; message := "OK" |} /\
  run_loop_ (state_of (run native s)) =
    Some (match run_loop_ s with
          | Some l => l
          | None => CFRunLoopGetCurrent_result native
          end) /\
  (exists t, calls (run native s) = t ++ [CFRunLoopRun]) /\
  (forall l, run_loop_ s = Some l ->
     state_of (run native s) = s /\ calls (run native s) = [CFRunLoopRun]).
Proof.
  split; [|split; [|split]].
  - unfold run. autorewrite with m_run. reflexivity.
  - rewrite run_state. destruct (run_loop_ s) eqn:Hl; [exact Hl|].
    now rewrite restart_run_loop.
  - rewrite run_calls. destruct (run_loop_ s).
    + now exists [].
    + now eexists (_ :: _).
  - intros l Hl. now rewrite run_state, run_calls, Hl.
Qed.

Lemma list_to_set_paths_nonempty (l : list string) :
  l <> [] -> (list_to_set l : gset string) <> ∅.
Proof.
  destruct l as [|p l]; [contradiction|]. intros _ Hempty.
  assert (Hin : p ∈ (list_to_set (p :: l) : gset string))
    by (apply elem_of_list_to_set; constructor).
  rewrite Hempty in Hin. now apply not_elem_of_empty in Hin.
Qed.

(** X15: [configure] with at least one subscription, then [run] on a
    publisher without a loop: when the native side creates and starts the
    stream, the publisher holds it, is started and bound to the loop of the
    calling thread, watches the resolved paths, and [isStreamRunning]
    answers whether that loop is waiting. *)
Theorem configure_then_run_starts `{PathOps}
        (fs : FileSystem) (native native' : Native)
        (subscriptions : list FSEventsSubscriptionContext)
        (s : PublisherState) (st : FSEventStreamRef) :
  subscriptions <> [] ->
  run_loop_ s = None ->
  FSEventStreamCreate_result native' = Some st ->
  FSEventStreamStart_result native' = true ->
  let s1 := state_of (configure fs native subscriptions s) in
  let s2 := state_of (run native' s1) in
  stream_ s2 = Some st /\
  stream_started_ s2 = true /\
  run_loop_ s2 = Some (CFRunLoopGetCurrent_result native') /\
  paths_ s2 = list_to_set (map path (map (resolve fs) subscriptions)) /\
  forall native'',
    result (isStreamRunning native'' s2) = CFRunLoopIsWaiting_result native''.
Proof.
  intros Hsubs Hloop Hcreate Hstart s1 s2.
  set (ps := list_to_set (map path (map (resolve fs) subscriptions))
             : gset string).
  assert (Hps : ps <> ∅).
  { apply list_to_set_paths_nonempty.
    destruct subscriptions; [contradiction|discriminate]. }
  assert (Hs1 : s1 = set_paths ps s).
  { subst s1. rewrite configure_state. fold ps.
    destruct (decide (paths_ (set_paths ps s) = ∅)); [reflexivity|].
    rewrite restart_state.
    destruct (decide (paths_ (set_paths ps s) = ∅)); [reflexivity|].
    simpl. now rewrite Hloop. }
  assert (Hs2 : s2 = set_started true (set_stream (Some st)
                       (state_of (stop (set_run_loop
                          (Some (CFRunLoopGetCurrent_result native')) s1))))).
  { subst s2. rewrite run_state, Hs1. simpl. rewrite Hloop.
    rewrite restart_state. simpl.
    destruct (decide (ps = ∅)); [contradiction|].
    now rewrite Hcreate, Hstart. }
  assert (Hfields : run_loop_ s2 = Some (CFRunLoopGetCurrent_result native')
                    /\ paths_ s2 = ps).
  { rewrite Hs2. simpl.
    destruct (stop_fields (set_run_loop
                (Some (CFRunLoopGetCurrent_result native')) s1))
      as (_ & -> & ->).
    now rewrite Hs1. }
  destruct Hfields as [Hl Hp].
  split; [now rewrite Hs2|]. split; [now rewrite Hs2|].
  split; [exact Hl|]. split; [exact Hp|].
  intros native''. rewrite isStreamRunning_result, Hl.
  now rewrite Hs2.
Qed.

Lemma configure_then_run_starts_witness :
  let s2 := state_running in
  stream_ s2 = Some 1%nat /\ stream_started_ s2 = true /\
  result (isStreamRunning native_ok s2) = true.
Proof.
  intros s2.
  destruct (@configure_then_run_starts posix_paths (fs_of_links [])
              native_ok native_ok [subscription_tmp] initial_state 1%nat)
    as (Hstream & Hstarted & _ & _ & Hrunning);
    [discriminate | reflexivity | reflexivity | reflexivity |].
  split; [exact Hstream|]. split; [exact Hstarted|].
  exact (Hrunning native_ok).
Defined.

Lemma size_list_to_set_le (l : list string) :
  (size (list_to_set l : gset string) <= length l)%nat.
Proof.
  induction l as [|p l IH].
  - rewrite list_to_set_nil, size_empty. reflexivity.
  - rewrite list_to_set_cons, size_union_alt, size_singleton. simpl.
    pose proof (subseteq_size (list_to_set l ∖ {[p]})
                  (list_to_set l : gset string)) as Hle.
    assert (Hsub : (list_to_set l ∖ {[p]} : gset string) ⊆ list_to_set l)
      by (intros x Hx; now apply elem_of_difference in Hx as [Hx _]).
    apply Hle in Hsub. lia.
Qed.

Lemma configure_paths `{PathOps} (fs : FileSystem) (native : Native)
      (subscriptions : list FSEventsSubscriptionContext) (s : PublisherState) :
  paths_ (state_of (configure fs native subscriptions s)) =
  list_to_set (map path (map (resolve fs) subscriptions)).
Proof.
  rewrite configure_state.
  match goal with |- context [decide ?P] => destruct (decide P) end;
    [reflexivity|].
  now rewrite restart_paths.
Qed.

(** X16: [configure] rebuilds the watched paths from the subscriptions
    alone: whatever was watched before, the paths afterwards are exactly
    the resolved paths of the subscriptions, each once, so
    [numSubscriptionedPaths] is at most the number of subscriptions and
    subscriptions that resolve to one path count once. *)
Theorem configure_rebuilds_paths `{PathOps} (fs : FileSystem) (native : Native)
        (subscriptions : list FSEventsSubscriptionContext)
        (s : PublisherState) :
  let r := configure fs native subscriptions s in
  (forall p, p ∈ paths_ (state_of r) <->
             exists sub, In sub subscriptions /\ path (resolve fs sub) = p) /\
  (forall p, p ∈ paths_ (state_of r) <->
             exists sub', In sub' (result r) /\ path sub' = p) /\
  (result (numSubscriptionedPaths (state_of r)) <= length subscriptions)%nat /\
  (forall s0, paths_ (state_of (configure fs native subscriptions s0)) =
              paths_ (state_of r)).
Proof.
  intros r. subst r.
  rewrite configure_paths, configure_result.
  assert (Hmem : forall p,
    p ∈ (list_to_set (map path (map (resolve fs) subscriptions)) : gset string)
    <-> exists sub, In sub subscriptions /\ path (resolve fs sub) = p).
  { intros p. rewrite elem_of_list_to_set, list_elem_of_In, map_map, in_map_iff.
    split; intros (sub & H1 & H2); exists sub; tauto. }
  split; [exact Hmem|]. split; [|split].
  - intros p. rewrite Hmem. split.
    + intros (sub & Hin & Hp). exists (resolve fs sub).
      split; [now apply in_map|exact Hp].
    + intros (sub' & Hin & Hp). apply in_map_iff in Hin as (sub & <- & Hin).
      now exists sub.
  - unfold numSubscriptionedPaths. autorewrite with m_run.
    rewrite configure_paths.
    pose proof (size_list_to_set_le (map path (map (resolve fs) subscriptions)))
      as Hle.
    now rewrite !length_map in Hle.
  - intros s0. now rewrite configure_paths.
Qed.

(** The second invariant of the lifecycle: a stream is held only while a
    loop is bound. *)
Lemma exec_stream_has_loop `{PathOps} (native : Native) (op : Op)
      (s : PublisherState) :
  (stream_ s <> None -> run_loop_ s <> None) ->
  stream_ (exec native op s) <> None -> run_loop_ (exec native op s) <> None.
Proof.
  intros Hinv.
  assert (Hrestart : forall native s0,
            (stream_ s0 <> None -> run_loop_ s0 <> None) ->
            stream_ (state_of (restart native s0)) <> None ->
            run_loop_ (state_of (restart native s0)) <> None).
  { intros native0 s0 Hinv0. rewrite restart_run_loop, restart_state.
    destruct (decide (paths_ s0 = ∅)); [exact Hinv0|].
    destruct (run_loop_ s0); [discriminate|exact Hinv0]. }
  destruct op as [fs subs| | | | | |async]; cbn [exec].
  - rewrite configure_state.
    match goal with |- context [decide ?P] => destruct (decide P) end;
      [exact Hinv | now apply Hrestart].
  - now apply Hrestart.
  - rewrite run_state. destruct (run_loop_ s) eqn:Hl; [now rewrite Hl|].
    apply Hrestart. discriminate.
  - destruct (stop_fields s) as (Hnone & _).
    intros Hheld. exfalso. apply Hheld. exact Hnone.
  - destruct (stop_fields s) as (Hnone & _).
    intros Hheld. exfalso. apply Hheld. exact Hnone.
  - destruct (stop_fields s) as (Hnone & _).
    intros Hheld. exfalso. apply Hheld.
    change (stream_ (state_of (tearDown s)) = None).
    rewrite tearDown_state. exact Hnone.
  - change (stream_ (state_of (flush async s)) <> None ->
            run_loop_ (state_of (flush async s)) <> None).
    now rewrite flush_state.
Qed.

(** X17: in every state the publisher can reach, a stream is held only
    while a loop is bound; so [isStreamRunning] there answers [true]
    exactly when the publisher is started and its loop is waiting. *)
Theorem stream_only_with_loop `{PathOps} (s : PublisherState) :
  reachable s ->
  (stream_ s <> None -> run_loop_ s <> None) /\
  forall native,
    result (isStreamRunning native s) =
    stream_started_ s && CFRunLoopIsWaiting_result native.
Proof.
  intros Hreach.
  assert (Hloop : stream_ s <> None -> run_loop_ s <> None).
  { induction Hreach as [|s native op _ IH]; [intros []; reflexivity|].
    now apply exec_stream_has_loop. }
  split; [exact Hloop|].
  intros native. rewrite isStreamRunning_result.
  apply reachable_started_has_stream in Hreach.
  unfold started_has_stream in Hreach.
  destruct (stream_ s) eqn:Hst.
  - destruct (run_loop_ s); [reflexivity|]. now destruct Hloop.
  - destruct (stream_started_ s); [|reflexivity]. now destruct Hreach.
Qed.

Lemma stream_only_with_loop_witness :
  run_loop_ state_start_failed <> None /\
  result (isStreamRunning native_ok state_start_failed) = false.
Proof.
  destruct (@stream_only_with_loop posix_paths state_start_failed
              state_start_failed_reachable) as [Hloop Hrunning].
  split.
  - apply Hloop. vm_compute. discriminate.
  - rewrite Hrunning. vm_compute. reflexivity.
Defined.

(** X18: after [stop] the publisher is quiet: [isStreamRunning] answers
    [false], and neither [flush] nor a further [stop], [end] or [tearDown]
    makes a call on a stream. *)
Theorem stop_quiesces (s : PublisherState) (native : Native) (async : bool) :
  let s' := state_of (stop s) in
  result (isStreamRunning native s') = false /\
  calls (flush async s') = [] /\
  count_calls is_stream_use (calls (stop s')) = 0%nat /\
  count_calls is_stream_use (calls (end_ s')) = 0%nat /\
  count_calls is_stream_use (calls (tearDown s')) = 0%nat.
Proof.
  intros s'. destruct (stop_fields s) as (Hstream & _). fold s' in Hstream.
  assert (Hstop : count_calls is_stream_use (calls (stop s')) = 0%nat)
    by (rewrite stop_calls, Hstream; now destruct (run_loop_ s')).
  rewrite isStreamRunning_result, flush_calls, tearDown_calls, Hstream.
  repeat split; exact Hstop.
Qed.

(** ** Symlink resolution, in general *)

Section ResolutionFacts.
Context {path_ops : PathOps}.

Lemma follow_links_not_link (n : nat) (fs : FileSystem)
      (sub : FSEventsSubscriptionContext) :
  is_symlink fs (path sub) = false -> follow_links n fs sub = sub.
Proof. intros Hlink. destruct n; simpl; [reflexivity|]. now rewrite Hlink. Qed.

Lemma follow_links_compose (m n : nat) (fs : FileSystem)
      (sub : FSEventsSubscriptionContext) :
  follow_links n fs (follow_links m fs sub) = follow_links (m + n) fs sub.
Proof.
  revert sub. induction m as [|m IH]; intros sub; simpl; [reflexivity|].
  destruct (is_symlink fs (path sub)) eqn:Hlink; [apply IH|].
  now apply follow_links_not_link.
Qed.

(** X19: the bound of five links is per call of [configure].  A path that
    is not a link is left as it is; a second [configure] over the same
    subscriptions takes up each path where the first left it and follows up
    to five further links, and changes nothing for a subscription whose
    path is no longer a link. *)
Theorem reconfigure_continues_resolution
        (fs : FileSystem) (native native' : Native)
        (subscriptions : list FSEventsSubscriptionContext)
        (s s' : PublisherState) :
  let once := result (configure fs native subscriptions s) in
  let twice := result (configure fs native' once s') in
  twice = map (follow_links (2 * FSEVENTS_MAX_SYMLINK_DEPTH) fs) subscriptions /\
  (forall i sub, once !! i = Some sub ->
     is_symlink fs (path sub) = false -> twice !! i = Some sub) /\
  (forall i sub, subscriptions !! i = Some sub ->
     is_symlink fs (path sub) = false -> once !! i = Some sub).
Proof.
  intros once twice. subst twice once. rewrite !configure_result.
  split; [|split].
  - rewrite map_map. apply map_ext. intros sub. unfold resolve.
    apply follow_links_compose.
  - intros i sub Hi Hlink.
    change (map (resolve fs) (map (resolve fs) subscriptions))
      with (resolve fs <$> (map (resolve fs) subscriptions)).
    rewrite list_lookup_fmap, Hi. simpl. f_equal.
    now apply follow_links_not_link.
  - intros i sub Hi Hlink.
    change (map (resolve fs) subscriptions) with (resolve fs <$> subscriptions).
    rewrite list_lookup_fmap, Hi. simpl. f_equal.
    now apply follow_links_not_link.
Qed.

Lemma follow_links_fields (n : nat) (fs : FileSystem)
      (sub : FSEventsSubscriptionContext) :
  recursive (follow_links n fs sub) = recursive sub /\
  mask (follow_links n fs sub) = mask sub /\
  (link_ sub <> "" -> link_ (follow_links n fs sub) = link_ sub).
Proof.
  revert sub. induction n as [|n IH]; intros sub; simpl; [now repeat split|].
  destruct (is_symlink fs (path sub)); [|now repeat split].
  destruct (IH (follow_link fs sub)) as (Hrec & Hmask & Hlink).
  rewrite Hrec, Hmask, follow_link_recursive, follow_link_mask.
  split; [reflexivity|]. split; [reflexivity|].
  intros Hne.
  assert (Hkept : link_ (follow_link fs sub) = link_ sub)
    by now rewrite follow_link_link, is_empty_false.
  rewrite Hlink; [exact Hkept | now rewrite Hkept].
Qed.

(** X20: the original link path is written once.  Resolution never changes
    [recursive] or [mask]; it keeps an original link path that is already
    set; it leaves it empty when the path is not a link; and it sets it to
    the requested path when that is a link and none was set. *)
Theorem link_written_once (fs : FileSystem)
        (sub : FSEventsSubscriptionContext) :
  recursive (resolve fs sub) = recursive sub /\
  mask (resolve fs sub) = mask sub /\
  (link_ sub <> "" -> link_ (resolve fs sub) = link_ sub) /\
  (link_ sub = "" -> is_symlink fs (path sub) = false ->
   link_ (resolve fs sub) = "") /\
  (link_ sub = "" -> path sub <> "" -> is_symlink fs (path sub) = true ->
   link_ (resolve fs sub) = path sub).
Proof.
  unfold resolve, FSEVENTS_MAX_SYMLINK_DEPTH.
  destruct (follow_links_fields 5 fs sub) as (Hrec & Hmask & Hlink).
  split; [exact Hrec|]. split; [exact Hmask|]. split; [exact Hlink|].
  split.
  - intros Hempty Hnot. now rewrite follow_links_not_link.
  - intros Hempty Hpath Hislink.
    change (follow_links 5 fs sub)
      with (if is_symlink fs (path sub)
            then follow_links 4 fs (follow_link fs sub) else sub).
    rewrite Hislink.
    assert (Hset : link_ (follow_link fs sub) = path sub)
      by now rewrite follow_link_link, Hempty.
    destruct (follow_links_fields 4 fs (follow_link fs sub)) as (_ & _ & Hkeep).
    rewrite Hkeep; [exact Hset | now rewrite Hset].
Qed.

Lemma last_cons_default (q d : string) (l : list string) :
  List.last (q :: l) d = List.last l q.
Proof.
  revert q d. induction l as [|x l IH]; intros q d; [reflexivity|].
  change (List.last (q :: x :: l) d) with (List.last (x :: l) d).
  now rewrite !IH.
Qed.

Lemma follow_links_chain (n : nat) (fs : FileSystem)
      (sub : FSEventsSubscriptionContext) (targets : list string) :
  link_chain fs (path sub) targets ->
  (n <= length targets)%nat \/
  is_symlink fs (List.last targets (path sub)) = false ->
  path (follow_links n fs sub) = List.last (firstn n targets) (path sub).
Proof.
  revert sub targets. induction n as [|n IH]; intros sub targets Hchain Hend.
  - reflexivity.
  - destruct targets as [|q rest].
    + destruct Hend as [Hlen|Hnot]; [simpl in Hlen; lia|].
      simpl in Hnot. now rewrite follow_links_not_link.
    + destruct Hchain as [Hhop Hchain].
      rewrite (follow_links_hop n fs sub q Hhop).
      assert (Hq : path (follow_link fs sub) = q)
        by now apply follow_link_absolute.
      rewrite (IH (follow_link fs sub) rest).
      * rewrite Hq. change (firstn (S n) (q :: rest)) with (q :: firstn n rest).
        now rewrite last_cons_default.
      * now rewrite Hq.
      * rewrite Hq. destruct Hend as [Hlen|Hnot].
        -- left. simpl in Hlen. lia.
        -- right. now rewrite last_cons_default in Hnot.
Qed.

(** X21: along a chain of links with absolute targets, [configure] leaves
    the path of a subscription at the end of the chain when the chain has
    at most five links and ends in something that is not a link, and at the
    fifth target when the chain is longer; that path is then watched. *)
Theorem configure_walks_chain
        (fs : FileSystem) (native : Native) (s : PublisherState)
        (subscriptions : list FSEventsSubscriptionContext) (i : nat)
        (sub : FSEventsSubscriptionContext) (targets : list string) :
  subscriptions !! i = Some sub ->
  link_chain fs (path sub) targets ->
  (FSEVENTS_MAX_SYMLINK_DEPTH <= length targets)%nat \/
  is_symlink fs (List.last targets (path sub)) = false ->
  let r := configure fs native subscriptions s in
  exists sub',
    result r !! i = Some sub' /\
    path sub' =
      List.last (firstn FSEVENTS_MAX_SYMLINK_DEPTH targets) (path sub) /\
    path sub' ∈ paths_ (state_of r).
Proof.
  intros Hsub Hchain Hend r. subst r.
  exists (resolve fs sub).
  assert (Hlookup : map (resolve fs) subscriptions !! i = Some (resolve fs sub)).
  { change (map (resolve fs) subscriptions) with (resolve fs <$> subscriptions).
    now rewrite list_lookup_fmap, Hsub. }
  rewrite configure_result, configure_paths.
  split; [exact Hlookup|]. split.
  - now apply follow_links_chain.
  - apply elem_of_list_to_set, list_elem_of_In, in_map.
    apply list_elem_of_In, list_elem_of_lookup. now exists i.
Qed.

(** X22: a subscription as registered on a link that holds a relative
    target which is not itself a link: [configure] leaves the path of the
    subscription at the target taken from the directory of the link,
    records the link as the original link path, and watches that path. *)
Theorem configure_resolves_relative_link
        (fs : FileSystem) (native : Native) (s : PublisherState)
        (subscriptions : list FSEventsSubscriptionContext) (i : nat)
        (sub : FSEventsSubscriptionContext) :
  subscriptions !! i = Some sub ->
  link_ sub = "" -> path sub <> "" ->
  is_symlink fs (path sub) = true ->
  is_absolute (read_symlink fs (path sub)) = false ->
  let target :=
    path_append (parent_path (path sub)) (read_symlink fs (path sub)) in
  is_symlink fs target = false ->
  let r := configure fs native subscriptions s in
  exists sub',
    result r !! i = Some sub' /\
    path sub' = target /\
    link_ sub' = path sub /\
    target ∈ paths_ (state_of r).
Proof.
  intros Hsub Hlink Hpath Hislink Hrel target Hfile r. subst r.
  assert (Hhop : path (follow_link fs sub) = target /\
                 link_ (follow_link fs sub) = path sub).
  { rewrite (follow_link_relative fs sub Hrel), follow_link_link, Hlink.
    now split. }
  destruct Hhop as [Hp Hl].
  assert (Hresolve : resolve fs sub = follow_link fs sub).
  { unfold resolve.
    change (follow_links FSEVENTS_MAX_SYMLINK_DEPTH fs sub)
      with (if is_symlink fs (path sub)
            then follow_links 4 fs (follow_link fs sub) else sub).
    rewrite Hislink. apply follow_links_not_link. now rewrite Hp. }
  assert (Hlookup : map (resolve fs) subscriptions !! i
                    = Some (follow_link fs sub)).
  { change (map (resolve fs) subscriptions) with (resolve fs <$> subscriptions).
    now rewrite list_lookup_fmap, Hsub, <- Hresolve. }
  exists (follow_link fs sub).
  rewrite configure_result, configure_paths.
  split; [exact Hlookup|split; [exact Hp|split; [exact Hl|]]].
  rewrite <- Hp.
  apply elem_of_list_to_set, list_elem_of_In, in_map.
  apply list_elem_of_In, list_elem_of_lookup. now exists i.
Qed.
End ResolutionFacts.

Lemma configure_walks_chain_witness :
  let sub := {| path := "/s/a"; link_ := ""; recursive := false; mask := 0 |} in
  let r := @configure posix_paths fs_short_chain native_ok
                      [subscription_tmp; sub] initial_state in
  exists sub',
    result r !! 1%nat = Some sub' /\
    path sub' = "/data/file" /\
    "/data/file" ∈ paths_ (state_of r).
Proof.
  intros sub r.
  destruct (@configure_walks_chain posix_paths fs_short_chain native_ok
              initial_state [subscription_tmp; sub] 1%nat sub
              ["/s/b"; "/data/file"])
    as (sub' & Hsub' & Hpath & Hwatched);
    [reflexivity | repeat split | right; reflexivity |].
  exists sub'. split; [exact Hsub'|].
  split; [exact Hpath|]. now rewrite Hpath in Hwatched.
Defined.

Lemma configure_resolves_relative_link_witness :
  let fs := fs_of_links [("/a/l1", "t")] in
  let sub := {| path := "/a/l1"; link_ := ""; recursive := false; mask := 0 |} in
  let r := @configure posix_paths fs native_ok [sub] initial_state in
  exists sub',
    result r !! 0%nat = Some sub' /\
    path sub' = "/a/t" /\
    link_ sub' = "/a/l1" /\
    "/a/t" ∈ paths_ (state_of r).
Proof.
  intros fs sub r.
  exact (@configure_resolves_relative_link posix_paths fs native_ok
           initial_state [sub] 0%nat sub eq_refl eq_refl
           ltac:(discriminate) eq_refl eq_refl eq_refl).
Defined.
